(** * RieMap: data portal for regional OpenStreetMap extracts

    A shallow embedding of the portal's data model (the API types shared by
    the front end and the server), of the front-end operations that carry
    logic (region lookup in the hierarchy, map zoom selection, the
    expand/collapse state of the region list, the selection of the latest
    file, the loaders of the quality-report and version-comparison modals),
    and of the contracts of the server components those operations rely on
    (Artifact Store, Quality Analyzer, Version Differ, Job Orchestrator).

    JavaScript values are modelled as follows: [string] for strings,
    binary64 floats ([float]) for coordinates, [nat] for counts and sizes,
    [Q] for scores, [option] for optional fields and for [T | null], [list]
    for arrays, [gset string] for [Set<string>].  The state of a React
    component is passed explicitly: an operation takes the state it reads
    and returns the state it sets. *)

From Stdlib Require Import Floats QArith Lia Lqa Sorted Ascii.
From stdpp Require Import gmap strings list fin_maps pretty.

#[local] Open Scope string_scope.
#[local] Open Scope list_scope.

(** ** API types *)

Module BoundingBox.
Record t := mk {
  min_lat : float;
  min_lon : float;
  max_lat : float;
  max_lon : float
}.
End BoundingBox.

Module Region.
Record t := mk {
  id : string;
  name : string;
  admin_level : string;
  parent_id : option string;
  bounding_box : BoundingBox.t;
  area_km2 : option float;
  population : option float;
  country_code : option string;
  geofabrik_url : option string;
  has_children : bool;
  provides_data_services : bool;
  created_at : string;
  updated_at : string
}.
End Region.

Inductive DataFormat := OsmPbf | OsmXml | GeoJson.

Module DataFile.
Record t := mk {
  id : string;
  region_id : string;
  version : string;
  file_path : string;
  file_size : nat;
  format : DataFormat;
  created_at : string;
  is_latest : bool;
  quality_report_id : option string
}.
End DataFile.

Module RegionTree.
#[local] Unset Elimination Schemes.
Inductive t := mk {
  region : Region.t;
  children : list t;
  data_files : list DataFile.t
}.
End RegionTree.

(** ** Region lookup in the hierarchy *)

(** [findRegionById] walks the list in order; at each node it first tests
    the node itself, then searches the node's children, and only then moves
    on to the node's next sibling.  [findIn] is the body of one iteration of
    the [for] loop with the recursive call on [region.children] inlined. *)
Fixpoint findIn (id : string) (node : RegionTree.t) : option RegionTree.t :=
  if String.eqb (Region.id (RegionTree.region node)) id then Some node
  else
    (fix loop (regionList : list RegionTree.t) : option RegionTree.t :=
       match regionList with
       | [] => None
       | region :: rest =>
           match findIn id region with
           | Some found => Some found
           | None => loop rest
           end
       end) (RegionTree.children node).

Fixpoint findRegionById (regionList : list RegionTree.t) (id : string)
  : option RegionTree.t :=
  match regionList with
  | [] => None
  | region :: rest =>
      match findIn id region with
      | Some found => Some found
      | None => findRegionById rest id
      end
  end.

(** Depth-first pre-order enumeration of the nodes of a tree and of a forest. *)
Fixpoint preorder (node : RegionTree.t) : list RegionTree.t :=
  node :: flat_map preorder (RegionTree.children node).

Definition preorderAll (regionList : list RegionTree.t) : list RegionTree.t :=
  flat_map preorder regionList.

Definition hasId (id : string) (node : RegionTree.t) : bool :=
  String.eqb (Region.id (RegionTree.region node)) id.

(** Structural induction on region trees, with the hypothesis available for
    every child. *)
Section RegionTreeInduction.
Variable P : RegionTree.t -> Prop.
Hypothesis step : forall r cs fs, Forall P cs -> P (RegionTree.mk r cs fs).

Fixpoint RegionTree_ind (node : RegionTree.t) : P node :=
  match node with
  | RegionTree.mk r cs fs =>
      step r cs fs
        ((fix all (l : list RegionTree.t) : Forall P l :=
            match l with
            | [] => @List.Forall_nil _ P
            | c :: l' => @List.Forall_cons _ P c l' (RegionTree_ind c) (all l')
            end) cs)
  end.
End RegionTreeInduction.

(** ** Expand/collapse state of the compact region list *)

(** [toggleExpanded] copies the current set, removes the id when it is
    present and adds it otherwise, and stores the copy as the new state.
    The state is threaded explicitly: the argument is the component's
    [expandedRegions], the result is the value passed to
    [setExpandedRegions]. *)
Definition toggleExpanded (expandedRegions : gset string) (regionId : string)
  : gset string :=
  let newExpanded := expandedRegions in
  if decide (regionId ∈ newExpanded)
  then newExpanded ∖ {[regionId]}
  else newExpanded ∪ {[regionId]}.

(** ** Map zoom level of a bounding box *)

(** [Math.max] on two numbers: NaN if either argument is NaN; otherwise the
    larger argument, with [+0] taken to be larger than [-0]. *)
Definition Math_max (a b : float) : float :=
  if (is_nan a || is_nan b)%bool then nan
  else if (a <? b)%float then b
  else if (b <? a)%float then a
  else match classify a with NZero => b | _ => a end.

(** The larger of the two extents of the box, as [calculateZoom] computes it. *)
Definition maxDiffOf (bbox : BoundingBox.t) : float :=
  let latDiff := (BoundingBox.max_lat bbox - BoundingBox.min_lat bbox)%float in
  let lonDiff := (BoundingBox.max_lon bbox - BoundingBox.min_lon bbox)%float in
  Math_max latDiff lonDiff.

(** [x > c] in the source is [c <? x] here.  A comparison with NaN is
    false, so a box whose extent is NaN falls through to the last line. *)
Definition calculateZoom (bbox : BoundingBox.t) : Z :=
  let maxDiff := maxDiffOf bbox in
  if (50 <? maxDiff)%float then 3
  else if (20 <? maxDiff)%float then 4
  else if (10 <? maxDiff)%float then 5
  else if (5 <? maxDiff)%float then 6
  else if (2 <? maxDiff)%float then 7
  else if (1 <? maxDiff)%float then 8
  else if (0.5 <? maxDiff)%float then 9
  else 10.

(** ** Processing jobs *)

(** The job types and the statuses of the API. *)
Inductive JobType := Download | Process | QualityAnalysis | Cleanup.

Inductive JobStatus := Pending | Running | Completed | Failed | Cancelled.

(** The string a job type has in the [job_type] field of a job. *)
Definition jobTypeName (t : JobType) : string :=
  match t with
  | Download => "Download"
  | Process => "Process"
  | QualityAnalysis => "QualityAnalysis"
  | Cleanup => "Cleanup"
  end.

Module ProcessingJob.
Record t := mk {
  id : string;
  region_id : string;
  job_type : JobType;
  status : JobStatus;
  progress : nat;
  message : option string;
  created_at : string;
  started_at : option string;
  completed_at : option string
}.
End ProcessingJob.

(** *** Job Orchestrator *)

(** Modelled from the spec: the transitions of the state machine of a job,
    Pending -> Running -> {Completed, Failed, Cancelled}; the code of the
    Job Orchestrator is on the server and is not part of the front end. *)
Inductive transition : JobStatus -> JobStatus -> Prop :=
  | transition_start : transition Pending Running
  | transition_complete : transition Running Completed
  | transition_fail : transition Running Failed
  | transition_cancel : transition Running Cancelled.

(** Modelled from the spec: Completed, Failed and Cancelled are terminal. *)
Definition terminal (s : JobStatus) : bool :=
  match s with
  | Completed | Failed | Cancelled => true
  | Pending | Running => false
  end.

(** Whether a job is Running. *)
Definition isRunning (job : ProcessingJob.t) : bool :=
  match ProcessingJob.status job with Running => true | _ => false end.

(** Modelled from the spec: the admission control of the Job Orchestrator.
    The orchestrator keeps every job it has created, in creation order; a
    job is addressed by its position in that history.  Admission control
    looks jobs up by region id. *)
Definition hasRunningJob (jobs : list ProcessingJob.t) (regionId : string) : bool :=
  existsb (fun job => String.eqb (ProcessingJob.region_id job) regionId && isRunning job) jobs.

(** Modelled from the spec: the rejection of a request. *)
Inductive OrchestratorError := AlreadyInProgress.

(** Modelled from the spec: [requestProcessing].  A request for a region
    with a Running job is rejected as [AlreadyInProgress] (of the two
    policies the design allows, rejection is the one modelled); otherwise a
    new job is created in Pending, with no progress, and returned at once.
    The design does not say which job type a processing request gets;
    [Process] is used. *)
Definition requestProcessing (now regionId : string) (jobs : list ProcessingJob.t)
  : (OrchestratorError + ProcessingJob.t) * list ProcessingJob.t :=
  if hasRunningJob jobs regionId then (inl AlreadyInProgress, jobs)
  else
    let job := {|
      ProcessingJob.id := "job-" +:+ pretty (length jobs);
      ProcessingJob.region_id := regionId;
      ProcessingJob.job_type := Process;
      ProcessingJob.status := Pending;
      ProcessingJob.progress := 0;
      ProcessingJob.message := None;
      ProcessingJob.created_at := now;
      ProcessingJob.started_at := None;
      ProcessingJob.completed_at := None |} in
    (inr job, jobs ++ [job]).

(** Modelled from the spec: what happens to a job after it was requested:
    the orchestrator dequeues it, a stage of its pipeline ends, a stage
    fails with an error, a cancellation request is observed at a checkpoint. *)
Inductive JobEvent :=
  | Dequeue (now : string)
  | StageDone (now : string)
  | StageFailed (error now : string)
  | CancelObserved (now : string).

(** Field updates of a job. *)
Definition setRunning (now : string) (job : ProcessingJob.t) : ProcessingJob.t :=
  {| ProcessingJob.id := ProcessingJob.id job;
     ProcessingJob.region_id := ProcessingJob.region_id job;
     ProcessingJob.job_type := ProcessingJob.job_type job;
     ProcessingJob.status := Running;
     ProcessingJob.progress := ProcessingJob.progress job;
     ProcessingJob.message := ProcessingJob.message job;
     ProcessingJob.created_at := ProcessingJob.created_at job;
     ProcessingJob.started_at := Some now;
     ProcessingJob.completed_at := ProcessingJob.completed_at job |}.

Definition setProgress (p : nat) (job : ProcessingJob.t) : ProcessingJob.t :=
  {| ProcessingJob.id := ProcessingJob.id job;
     ProcessingJob.region_id := ProcessingJob.region_id job;
     ProcessingJob.job_type := ProcessingJob.job_type job;
     ProcessingJob.status := ProcessingJob.status job;
     ProcessingJob.progress := p;
     ProcessingJob.message := ProcessingJob.message job;
     ProcessingJob.created_at := ProcessingJob.created_at job;
     ProcessingJob.started_at := ProcessingJob.started_at job;
     ProcessingJob.completed_at := ProcessingJob.completed_at job |}.

Definition finish (s : JobStatus) (msg : option string) (now : string)
    (job : ProcessingJob.t) : ProcessingJob.t :=
  {| ProcessingJob.id := ProcessingJob.id job;
     ProcessingJob.region_id := ProcessingJob.region_id job;
     ProcessingJob.job_type := ProcessingJob.job_type job;
     ProcessingJob.status := s;
     ProcessingJob.progress := ProcessingJob.progress job;
     ProcessingJob.message := msg;
     ProcessingJob.created_at := ProcessingJob.created_at job;
     ProcessingJob.started_at := ProcessingJob.started_at job;
     ProcessingJob.completed_at := Some now |}.

(** Modelled from the spec: the effect of one event on one job.  [busy]
    tells whether the job's region already has a Running job.  Pending
    becomes Running when the job is dequeued and its region is free; a
    Running job advances by a quarter at each stage boundary (fetch,
    decode, analysis, publish) and completes after the fourth; an error
    fails it and is recorded in the message; a cancellation observed at a
    checkpoint cancels it.  Any other combination leaves the job as it is. *)
Definition stepJob (busy : bool) (e : JobEvent) (job : ProcessingJob.t)
  : ProcessingJob.t :=
  match ProcessingJob.status job, e with
  | Pending, Dequeue now => if busy then job else setRunning now job
  | Running, StageDone now =>
      let p := ProcessingJob.progress job + 25 in
      if Nat.leb 100 p then finish Completed (ProcessingJob.message job) now (setProgress 100 job)
      else setProgress p job
  | Running, StageFailed error now => finish Failed (Some error) now job
  | Running, CancelObserved now => finish Cancelled (ProcessingJob.message job) now job
  | _, _ => job
  end.

(** Modelled from the spec: what the orchestrator does in one step: admit
    a request, or apply an event to the job at a position of its history. *)
Inductive Action :=
  | Request (now regionId : string)
  | OnJob (i : nat) (e : JobEvent).

(** Modelled from the spec: one step of the orchestrator.  An event for a
    position with no job changes nothing. *)
Definition act (jobs : list ProcessingJob.t) (a : Action) : list ProcessingJob.t :=
  match a with
  | Request now regionId => snd (requestProcessing now regionId jobs)
  | OnJob i e =>
      match jobs !! i with
      | Some job =>
          <[i := stepJob (hasRunningJob jobs (ProcessingJob.region_id job)) e job]> jobs
      | None => jobs
      end
  end.

(** The history after a sequence of steps, and the status of a job in it. *)
Definition run (jobs : list ProcessingJob.t) (actions : list Action)
  : list ProcessingJob.t :=
  foldl act jobs actions.

Definition statusAt (jobs : list ProcessingJob.t) (i : nat) : option JobStatus :=
  ProcessingJob.status <$> jobs !! i.

(** ** The latest file of a region *)

(** The region card and the compact region list both select the file to
    offer for download with [data_files.find(file => file.is_latest)]. *)
Definition latestFile (data_files : list DataFile.t) : option DataFile.t :=
  List.find DataFile.is_latest data_files.

(** *** Artifact Store *)

(** Modelled from the spec: the Artifact Store, whose code is on the server
    and is not part of the front end.  Per region the store keeps the
    metadata records of the published versions, newest first, and one
    pointer to the latest version. *)
Module ArtifactStore.
Record t := mk {
  files : gmap string (list DataFile.t);
  latest_version : gmap string string
}.
Definition empty : t := mk ∅ ∅.
End ArtifactStore.

(** Modelled from the spec: the failures of the store. *)
Inductive StoreError := Conflict | NoneAvailable.

(** Modelled from the spec: a record is never changed after its creation,
    except that [is_latest] is switched off when it is superseded. *)
Definition demote (file : DataFile.t) : DataFile.t :=
  {| DataFile.id := DataFile.id file;
     DataFile.region_id := DataFile.region_id file;
     DataFile.version := DataFile.version file;
     DataFile.file_path := DataFile.file_path file;
     DataFile.file_size := DataFile.file_size file;
     DataFile.format := DataFile.format file;
     DataFile.created_at := DataFile.created_at file;
     DataFile.is_latest := false;
     DataFile.quality_report_id := DataFile.quality_report_id file |}.

(** Modelled from the spec: [listVersions], the versions of a region by
    creation time, newest first. *)
Definition listVersions (store : ArtifactStore.t) (regionId : string)
  : list DataFile.t :=
  default [] (ArtifactStore.files store !! regionId).

Definition hasVersion (version : string) (file : DataFile.t) : bool :=
  String.eqb (DataFile.version file) version.

(** Modelled from the spec: [publish].  One publish is one atomic step of
    the store (publishes of a region are serialized, and a reader sees the
    store before or after the step).  A version that is already there is
    rejected with [Conflict] and the store is left as it was (of the two
    behaviours the design allows, rejection is the one modelled).
    Otherwise the new record is stored as the latest one, the pointer is
    moved to it, and every earlier record of the region is demoted. *)
Definition publish (now regionId version : string) (format : DataFormat)
    (bytes : list Byte.byte) (store : ArtifactStore.t)
  : (StoreError + DataFile.t) * ArtifactStore.t :=
  let earlier := listVersions store regionId in
  if existsb (hasVersion version) earlier then (inl Conflict, store)
  else
    let file := {|
      DataFile.id := regionId +:+ "/" +:+ version;
      DataFile.region_id := regionId;
      DataFile.version := version;
      DataFile.file_path := regionId +:+ "/" +:+ version;
      DataFile.file_size := length bytes;
      DataFile.format := format;
      DataFile.created_at := now;
      DataFile.is_latest := true;
      DataFile.quality_report_id := None |} in
    (inr file,
     {| ArtifactStore.files :=
          <[regionId := file :: map demote earlier]> (ArtifactStore.files store);
        ArtifactStore.latest_version :=
          <[regionId := version]> (ArtifactStore.latest_version store) |}).

(** Modelled from the spec: [latest], through the pointer of the region. *)
Definition latest (store : ArtifactStore.t) (regionId : string)
  : StoreError + DataFile.t :=
  match ArtifactStore.latest_version store !! regionId with
  | None => inl NoneAvailable
  | Some version =>
      match List.find (hasVersion version) (listVersions store regionId) with
      | Some file => inr file
      | None => inl NoneAvailable
      end
  end.

(** The arguments of a call to [publish], and the store after a sequence
    of calls. *)
Record PublishRequest := {
  pr_now : string;
  pr_region : string;
  pr_version : string;
  pr_format : DataFormat;
  pr_bytes : list Byte.byte
}.

Definition publishAll (store : ArtifactStore.t) (requests : list PublishRequest)
  : ArtifactStore.t :=
  foldl (fun s r => snd (publish (pr_now r) (pr_region r) (pr_version r)
                           (pr_format r) (pr_bytes r) s))
        store requests.

(** What [publish] maintains of the records of a region: the newest
    record is flagged and is the one the pointer names, no older record is
    flagged, and no version occurs twice. *)
Definition regionConsistent (store : ArtifactStore.t) (regionId : string) : Prop :=
  match listVersions store regionId with
  | [] => ArtifactStore.latest_version store !! regionId = None
  | newest :: older =>
      DataFile.is_latest newest = true
      /\ ArtifactStore.latest_version store !! regionId = Some (DataFile.version newest)
      /\ Forall (fun f => DataFile.is_latest f = false) older
      /\ Forall (fun f => DataFile.version f <> DataFile.version newest) older
  end.

(** ** Quality reports *)

(** The quality report of the API.  The scores are exact rationals. *)
Module QualityIssues.
Record t := mk {
  missing_tags : nat;
  geometry_errors : nat;
  topology_issues : nat;
  outdated_data : nat
}.
End QualityIssues.

Module QualityReport.
Record t := mk {
  id : string;
  region_id : string;
  report_date : string;
  completeness_score : Q;
  accuracy_score : Q;
  freshness_score : Q;
  overall_score : Q;
  issues : QualityIssues.t;
  recommendations : list string
}.
End QualityReport.

(** *** Quality Analyzer *)

(** Modelled from the spec: the decoded dataset the Geo Decoder hands to
    the analyzer (the counts of the [QualityMetrics] of the API), with the
    age of the capture in days. *)
Module DecodedDataset.
Record t := mk {
  total_nodes : nat;
  total_ways : nat;
  total_relations : nat;
  tagged_nodes : nat;
  tagged_ways : nat;
  tagged_relations : nat;
  geometry_errors : nat;
  tag_errors : nat;
  topology_errors : nat;
  age_days : nat
}.
End DecodedDataset.

(** Modelled from the spec: the constants the analyzer is configured with.
    The design leaves their values open. *)
Module AnalyzerConfig.
Record t := mk {
  geometry_weight : Q;
  topology_weight : Q;
  staleness_threshold : nat;
  freshness_floor : Q;
  completeness_share : Q;
  accuracy_share : Q;
  freshness_share : Q;
  rules : list ((QualityReport.t -> bool) * string)
}.
End AnalyzerConfig.

(** A count as a rational. *)
Definition ofNat (n : nat) : Q := inject_Z (Z.of_nat n).

Definition totalFeatures (d : DecodedDataset.t) : nat :=
  DecodedDataset.total_nodes d + DecodedDataset.total_ways d
  + DecodedDataset.total_relations d.

Definition taggedFeatures (d : DecodedDataset.t) : nat :=
  DecodedDataset.tagged_nodes d + DecodedDataset.tagged_ways d
  + DecodedDataset.tagged_relations d.

(** Clamping to the interval [0,100]. *)
Definition clamp (x : Q) : Q :=
  if Qle_bool x 0 then 0%Q else if Qle_bool 100 x then 100%Q else x.

(** Modelled from the spec: completeness is 100 x tagged / total, clamped to
    [0,100], and 0 when there is no feature. *)
Definition completenessOf (d : DecodedDataset.t) : Q :=
  if Nat.eqb (totalFeatures d) 0 then 0%Q
  else clamp (100 * ofNat (taggedFeatures d) / ofNat (totalFeatures d))%Q.

(** Modelled from the spec: accuracy is 100 minus the weighted number of
    geometry and topology errors per 1000 features, the penalty being capped
    at 100.  With no feature there is no rate and no penalty. *)
Definition penaltyOf (cfg : AnalyzerConfig.t) (d : DecodedDataset.t) : Q :=
  if Nat.eqb (totalFeatures d) 0 then 0%Q
  else ((AnalyzerConfig.geometry_weight cfg * ofNat (DecodedDataset.geometry_errors d)
         + AnalyzerConfig.topology_weight cfg * ofNat (DecodedDataset.topology_errors d))
        * 1000 / ofNat (totalFeatures d))%Q.

Definition accuracyOf (cfg : AnalyzerConfig.t) (d : DecodedDataset.t) : Q :=
  (100 - clamp (penaltyOf cfg d))%Q.

(** Modelled from the spec: freshness is 100 at age 0 and decays linearly to
    the floor, which it reaches at the staleness threshold. *)
Definition freshnessOf (cfg : AnalyzerConfig.t) (d : DecodedDataset.t) : Q :=
  if Nat.leb (AnalyzerConfig.staleness_threshold cfg) (DecodedDataset.age_days d)
  then AnalyzerConfig.freshness_floor cfg
  else (100 - (100 - AnalyzerConfig.freshness_floor cfg)
              * ofNat (DecodedDataset.age_days d)
              / ofNat (AnalyzerConfig.staleness_threshold cfg))%Q.

(** Modelled from the spec: the overall score is the average of the three
    scores with the configured shares. *)
Definition overallOf (cfg : AnalyzerConfig.t) (c a f : Q) : Q :=
  ((AnalyzerConfig.completeness_share cfg * c + AnalyzerConfig.accuracy_share cfg * a
    + AnalyzerConfig.freshness_share cfg * f)
   / (AnalyzerConfig.completeness_share cfg + AnalyzerConfig.accuracy_share cfg
      + AnalyzerConfig.freshness_share cfg))%Q.

(** Modelled from the spec: [analyze].  The recommendations are the
    messages of all the rules that match, in the order of the rules. *)
Definition analyze (cfg : AnalyzerConfig.t) (reportId now : string)
    (d : DecodedDataset.t) (region : Region.t) : QualityReport.t :=
  let c := completenessOf d in
  let a := accuracyOf cfg d in
  let f := freshnessOf cfg d in
  let draft := {|
    QualityReport.id := reportId;
    QualityReport.region_id := Region.id region;
    QualityReport.report_date := now;
    QualityReport.completeness_score := c;
    QualityReport.accuracy_score := a;
    QualityReport.freshness_score := f;
    QualityReport.overall_score := overallOf cfg c a f;
    QualityReport.issues := {|
      QualityIssues.missing_tags := totalFeatures d - taggedFeatures d;
      QualityIssues.geometry_errors := DecodedDataset.geometry_errors d;
      QualityIssues.topology_issues := DecodedDataset.topology_errors d;
      QualityIssues.outdated_data :=
        if Nat.leb (AnalyzerConfig.staleness_threshold cfg) (DecodedDataset.age_days d)
        then 1 else 0 |};
    QualityReport.recommendations := [] |} in
  {| QualityReport.id := QualityReport.id draft;
     QualityReport.region_id := QualityReport.region_id draft;
     QualityReport.report_date := QualityReport.report_date draft;
     QualityReport.completeness_score := QualityReport.completeness_score draft;
     QualityReport.accuracy_score := QualityReport.accuracy_score draft;
     QualityReport.freshness_score := QualityReport.freshness_score draft;
     QualityReport.overall_score := QualityReport.overall_score draft;
     QualityReport.issues := QualityReport.issues draft;
     QualityReport.recommendations :=
       map snd (List.filter (fun rule => fst rule draft) (AnalyzerConfig.rules cfg)) |}.

(** A dataset in which every node, way and relation is tagged, and one in
    which the decoder counted no error. *)
Definition allTagged (d : DecodedDataset.t) : Prop :=
  DecodedDataset.tagged_nodes d = DecodedDataset.total_nodes d
  /\ DecodedDataset.tagged_ways d = DecodedDataset.total_ways d
  /\ DecodedDataset.tagged_relations d = DecodedDataset.total_relations d.

Definition errorFree (d : DecodedDataset.t) : Prop :=
  DecodedDataset.geometry_errors d = 0
  /\ DecodedDataset.tag_errors d = 0
  /\ DecodedDataset.topology_errors d = 0.

(** ** Loading a quality report *)

(** Modelled from the spec: the failure of a read of an unknown id. *)
Inductive ApiError := NotFound.

(** The rest of [s] after [prefix], when [s] starts with it. *)
Fixpoint stripPrefix (prefix s : string) : option string :=
  match prefix, s with
  | EmptyString, _ => Some s
  | String a prefix', String b s' =>
      if Ascii.eqb a b then stripPrefix prefix' s' else None
  | String _ _, EmptyString => None
  end.

(** Modelled from the spec: the read operation of the server for quality
    reports.  Reports are kept by report id; a request for [/reports/<id>]
    is answered with the report of that id, or with [NotFound]. *)
Definition serveReport (reports : gmap string QualityReport.t) (url : string)
  : ApiError + QualityReport.t :=
  match stripPrefix "/reports/" url with
  | Some reportId =>
      match reports !! reportId with
      | Some report => inr report
      | None => inl NotFound
      end
  | None => inl NotFound
  end.

(** [ApiClient.getQualityReport]: a GET of [/reports/${reportId}]. *)
Definition getQualityReport (reports : gmap string QualityReport.t)
    (reportId : string) : ApiError + QualityReport.t :=
  serveReport reports ("/reports/" +:+ reportId).

(** The state of the quality-report modal. *)
Module QualityModal.
Record t := mk {
  report : option QualityReport.t;
  loading : bool;
  error : option string
}.
Definition initial : t := mk None false None.
End QualityModal.

(** [loadQualityReport] of the modal, from the state at the call to the
    state when the promise has settled.  The modal is given [regionId] in
    its properties and passes it to [api.getQualityReport]. *)
Definition loadQualityReport (reports : gmap string QualityReport.t)
    (regionId : string) (st : QualityModal.t) : QualityModal.t :=
  let st := QualityModal.mk (QualityModal.report st) true (QualityModal.error st) in
  let st := QualityModal.mk (QualityModal.report st) (QualityModal.loading st) None in
  let st :=
    match getQualityReport reports regionId with
    | inr reportData =>
        QualityModal.mk (Some reportData) (QualityModal.loading st) (QualityModal.error st)
    | inl _ =>
        QualityModal.mk (QualityModal.report st) (QualityModal.loading st)
          (Some "Failed to load quality report")
    end in
  QualityModal.mk (QualityModal.report st) false (QualityModal.error st).

(** ** Version comparison *)

(** The comparison the version-comparison modal displays. *)
Module ChangeDetail.
Record t := mk {
  category : string;
  added : nat;
  modified : nat;
  deleted : nat
}.
End ChangeDetail.

Module Changes.
Record t := mk {
  added_features : nat;
  modified_features : nat;
  deleted_features : nat;
  total_features_from : nat;
  total_features_to : nat
}.
End Changes.

Module VersionComparison.
Record t := mk {
  region_id : string;
  from_version : string;
  to_version : string;
  comparison_date : string;
  changes : Changes.t;
  change_details : list ChangeDetail.t;
  file_size_change : Z;
  data_quality_change : Q
}.
End VersionComparison.

(** *** Version Differ *)

(** Modelled from the spec: a decoded feature, with its tag set and its
    geometry; a decoded dataset maps each stable feature id to its feature. *)
Module Feature.
Record t := mk {
  tags : gmap string string;
  geometry : list (Z * Z)
}.
#[global] Instance eq_dec : EqDecision t.
Proof. solve_decision. Defined.
End Feature.

(** Modelled from the spec: what the differ reads of one published version:
    the decoded dataset, the size of the file and the overall quality score. *)
Module VersionData.
Record t := mk {
  dataset : gmap Z Feature.t;
  file_size : nat;
  quality : Q
}.
End VersionData.

(** Modelled from the spec: the failures of the differ. *)
Inductive CompareError := VersionNotFound | InvalidOrder.

(** Modelled from the spec: the classification of features.  The rules are
    tried in order and the first one that matches gives the category; a
    feature that matches none is in the category "other". *)
Definition classify (rules : list (string * (Feature.t -> bool))) (f : Feature.t)
  : string :=
  match List.find (fun rule => snd rule f) rules with
  | Some rule => fst rule
  | None => "other"
  end.

(** Modelled from the spec: the closed list of the categories. *)
Definition categories (rules : list (string * (Feature.t -> bool))) : list string :=
  remove_dups (map fst rules ++ ["other"]).

(** Modelled from the spec: the category under which a comparison tallies
    the feature with a given id.  A feature is identified by its stable id,
    so that one feature has one category in a comparison; the design leaves
    open which one when the feature is in both versions with tags of
    different categories, and the category of the later version, [to], is
    taken.  A feature of [from] alone has its category in [from]. *)
Definition categoryIn (rules : list (string * (Feature.t -> bool)))
    (from to : gmap Z Feature.t) (id : Z) : string :=
  match to !! id with
  | Some g => classify rules g
  | None =>
      match from !! id with
      | Some f => classify rules f
      | None => "other"
      end
  end.

(** The features of a dataset that the comparison of [from] and [to] tallies
    under a category. *)
Definition inCategory (rules : list (string * (Feature.t -> bool)))
    (from to : gmap Z Feature.t) (c : string) (d : gmap Z Feature.t)
  : gmap Z Feature.t :=
  filter (fun kv => categoryIn rules from to (fst kv) = c) d.

(** Modelled from the spec: a feature is present only in one dataset when
    the other dataset has no feature with its id. *)
Definition absentIn (other : gmap Z Feature.t) (kv : Z * Feature.t) : Prop :=
  other !! fst kv = None.

#[global] Instance absentIn_dec other kv : Decision (absentIn other kv).
Proof. unfold absentIn. destruct (other !! fst kv); [right|left]; done. Defined.

(** Modelled from the spec: a feature of [from] is modified when [to] has
    the same id with a different tag set or geometry. *)
Definition changedIn (to : gmap Z Feature.t) (kv : Z * Feature.t) : Prop :=
  exists g, to !! fst kv = Some g /\ g <> snd kv.

#[global] Instance changedIn_dec to kv : Decision (changedIn to kv).
Proof.
  unfold changedIn. destruct (to !! fst kv) as [g|].
  - destruct (decide (g = snd kv)) as [Heq|Hne].
    + right. intros (g' & Hg & Hne). congruence.
    + left. eauto.
  - right. intros (g' & Hg & _). discriminate.
Defined.

(** Modelled from the spec: the tally of one category.  Identity is by
    feature id over the two whole datasets: a feature of [to] whose id is
    not in [from] is added, a feature of [from] whose id is not in [to] is
    deleted, and a feature of [from] whose id is in [to] with a different
    tag set or geometry is modified, each under its category in the
    comparison. *)
Definition tally (rules : list (string * (Feature.t -> bool)))
    (from to : gmap Z Feature.t) (c : string) : ChangeDetail.t :=
  let f := inCategory rules from to c from in
  let t := inCategory rules from to c to in
  {| ChangeDetail.category := c;
     ChangeDetail.added := size (filter (absentIn from) t);
     ChangeDetail.modified := size (filter (changedIn to) f);
     ChangeDetail.deleted := size (filter (absentIn to) f) |}.


(** Modelled from the spec: [compare].  Both versions must be published
    ([VersionNotFound] otherwise), and [fromVersion] must not follow
    [toVersion] in the order of the version identifiers, which is the
    lexicographic order of the strings ([InvalidOrder] otherwise).  The
    aggregate counts are the sums of the tallies of the categories. *)
Definition compare (rules : list (string * (Feature.t -> bool))) (now : string)
    (store : gmap (string * string) VersionData.t)
    (regionId fromVersion toVersion : string)
  : CompareError + VersionComparison.t :=
  match store !! (regionId, fromVersion), store !! (regionId, toVersion) with
  | Some vf, Some vt =>
      if String.ltb toVersion fromVersion then inl InvalidOrder
      else
        let details :=
          map (tally rules (VersionData.dataset vf) (VersionData.dataset vt))
              (categories rules) in
        inr {|
          VersionComparison.region_id := regionId;
          VersionComparison.from_version := fromVersion;
          VersionComparison.to_version := toVersion;
          VersionComparison.comparison_date := now;
          VersionComparison.changes := {|
            Changes.added_features := sum_list_with ChangeDetail.added details;
            Changes.modified_features := sum_list_with ChangeDetail.modified details;
            Changes.deleted_features := sum_list_with ChangeDetail.deleted details;
            Changes.total_features_from := size (VersionData.dataset vf);
            Changes.total_features_to := size (VersionData.dataset vt) |};
          VersionComparison.change_details := details;
          VersionComparison.file_size_change :=
            (Z.of_nat (VersionData.file_size vt) - Z.of_nat (VersionData.file_size vf))%Z;
          VersionComparison.data_quality_change :=
            (VersionData.quality vt - VersionData.quality vf)%Q |}
  | _, _ => inl VersionNotFound
  end.

(** The state of the version-comparison modal. *)
Module ComparisonModal.
Record t := mk {
  fromVersion : string;
  toVersion : string;
  comparison : option VersionComparison.t;
  loading : bool;
  error : option string
}.
End ComparisonModal.

(** [handleCompare] of the modal, from the state at the click to the state
    when the promise has settled; [request] is [api.regions.compare] for the
    region of the modal.  The versions are passed in the order in which they
    are selected. *)
Definition handleCompare
    (request : string -> string -> CompareError + VersionComparison.t)
    (st : ComparisonModal.t) : ComparisonModal.t :=
  let fromVersion := ComparisonModal.fromVersion st in
  let toVersion := ComparisonModal.toVersion st in
  if (String.eqb fromVersion "" || String.eqb toVersion "")%bool then st
  else
    let loaded :=
      match request fromVersion toVersion with
      | inr comparisonData => (Some comparisonData, None)
      | inl _ => (ComparisonModal.comparison st, Some "Failed to load version comparison")
      end in
    {| ComparisonModal.fromVersion := fromVersion;
       ComparisonModal.toVersion := toVersion;
       ComparisonModal.comparison := fst loaded;
       ComparisonModal.loading := false;
       ComparisonModal.error := snd loaded |}.

(** ** Sample data *)

(** A configuration of the analyzer, a dataset with no feature, two boxes,
    a region. *)
Definition sampleConfig : AnalyzerConfig.t := {|
  AnalyzerConfig.geometry_weight := 1;
  AnalyzerConfig.topology_weight := 1;
  AnalyzerConfig.staleness_threshold := 365;
  AnalyzerConfig.freshness_floor := 0;
  AnalyzerConfig.completeness_share := 1;
  AnalyzerConfig.accuracy_share := 1;
  AnalyzerConfig.freshness_share := 1;
  AnalyzerConfig.rules :=
    [(fun r => negb (Qle_bool 70 (QualityReport.completeness_score r)),
      "high missing-tag rate: consider tag-completion pass")] |}.

Definition emptyDataset : DecodedDataset.t :=
  DecodedDataset.mk 0 0 0 0 0 0 0 0 0 0.

Definition sampleBox : BoundingBox.t :=
  BoundingBox.mk 47%float 9.25%float 47.25%float 9.75%float.

Definition worldBox : BoundingBox.t :=
  BoundingBox.mk (-90)%float (-180)%float 90%float 180%float.

Definition sampleRegion (id : string) (parent : option string) : Region.t := {|
  Region.id := id;
  Region.name := id;
  Region.admin_level := "Country";
  Region.parent_id := parent;
  Region.bounding_box := sampleBox;
  Region.area_km2 := None;
  Region.population := None;
  Region.country_code := None;
  Region.geofabrik_url := None;
  Region.has_children := false;
  Region.provides_data_services := true;
  Region.created_at := "2024-01-01T00:00:00Z";
  Region.updated_at := "2024-01-01T00:00:00Z" |}.

(** One region with one published file and its report. *)
Definition sampleReport : QualityReport.t := {|
  QualityReport.id := "report-1";
  QualityReport.region_id := "liechtenstein";
  QualityReport.report_date := "2024-01-01";
  QualityReport.completeness_score := 90;
  QualityReport.accuracy_score := 100;
  QualityReport.freshness_score := 100;
  QualityReport.overall_score := 290 # 3;
  QualityReport.issues := QualityIssues.mk 10 0 0 0;
  QualityReport.recommendations := [] |}.

Definition sampleReports : gmap string QualityReport.t :=
  {[ "report-1" := sampleReport ]}.

Definition sampleFile : DataFile.t := {|
  DataFile.id := "liechtenstein/2024-01-01";
  DataFile.region_id := "liechtenstein";
  DataFile.version := "2024-01-01";
  DataFile.file_path := "liechtenstein/2024-01-01";
  DataFile.file_size := 2048;
  DataFile.format := OsmPbf;
  DataFile.created_at := "2024-01-01T00:00:00Z";
  DataFile.is_latest := true;
  DataFile.quality_report_id := Some "report-1" |}.

Definition sampleNode : RegionTree.t :=
  RegionTree.mk (sampleRegion "liechtenstein" (Some "europe")) [] [sampleFile].

Definition leaf (id : string) (parent : option string) : RegionTree.t :=
  RegionTree.mk (sampleRegion id parent) [] [].

(** A forest in which the id "liechtenstein" occurs twice: deep in the first
    tree and at the top of the second. *)
Definition sampleForest : list RegionTree.t :=
  [ RegionTree.mk (sampleRegion "world" None)
      [ RegionTree.mk (sampleRegion "europe" (Some "world"))
          [ sampleNode; leaf "monaco" (Some "europe") ] [];
        leaf "asia" (Some "world") ] [];
    leaf "liechtenstein" None ].

Definition sampleRequests : list PublishRequest :=
  [ {| pr_now := "2023-12-01T00:00:00Z"; pr_region := "liechtenstein";
       pr_version := "2023-12-01"; pr_format := OsmPbf; pr_bytes := [] |};
    {| pr_now := "2024-01-01T00:00:00Z"; pr_region := "liechtenstein";
       pr_version := "2024-01-01"; pr_format := OsmPbf; pr_bytes := [] |};
    {| pr_now := "2024-01-02T00:00:00Z"; pr_region := "liechtenstein";
       pr_version := "2023-12-01"; pr_format := OsmPbf; pr_bytes := [] |};
    {| pr_now := "2024-01-03T00:00:00Z"; pr_region := "monaco";
       pr_version := "2024-01-03"; pr_format := GeoJson; pr_bytes := [] |} ].

Definition hasTag (key : string) (f : Feature.t) : bool :=
  bool_decide (is_Some (Feature.tags f !! key)).

Definition sampleRules : list (string * (Feature.t -> bool)) :=
  [ ("roads", hasTag "highway"); ("buildings", hasTag "building") ].

Definition road (geometry : list (Z * Z)) : Feature.t :=
  Feature.mk {[ "highway" := "residential" ]} geometry.

Definition building : Feature.t :=
  Feature.mk {[ "building" := "yes" ]} [(0, 0); (0, 1); (1, 1); (0, 0)]%Z.

Definition untagged : Feature.t := Feature.mk ∅ [(5, 5)]%Z.

(** Between the two versions feature 1 changes its geometry, feature 2
    disappears, feature 3 becomes a building, and feature 4 appears. *)
Definition sampleVersions : gmap (string * string) VersionData.t :=
  {[ ("liechtenstein", "2023-12-01") :=
       VersionData.mk
         {[ 1%Z := road [(0, 0); (1, 0)]%Z; 2%Z := building; 3%Z := untagged ]}
         2000 80;
     ("liechtenstein", "2024-01-01") :=
       VersionData.mk
         {[ 1%Z := road [(0, 0); (2, 0)]%Z; 3%Z := building;
            4%Z := road [(3, 3); (4, 4)]%Z ]}
         2048 90 ]}.

Definition allTaggedDataset : DecodedDataset.t :=
  DecodedDataset.mk 10 5 1 10 5 1 0 0 0 30.

(** * Further operations of the front end *)

(** ** Region page: paths, breadcrumbs and navigation *)

Module BreadcrumbItem.
Record t := mk {
  id : string;
  name : string;
  path : string
}.
End BreadcrumbItem.

(** What the region page keeps and does when it navigates: the region
    shown, the breadcrumb, and the last URL given to [router.push]. *)
Module Nav.
Record t := mk {
  currentRegion : option RegionTree.t;
  currentPath : list BreadcrumbItem.t;
  pushed : option string
}.
Definition initial : t := mk None [] None.
End Nav.

(** [arr.join('/')]. *)
Definition joinPath (segments : list string) : string := String.concat "/" segments.

(** The region page that builds URL paths by a search of the hierarchy
    (app/region/[...path]/page.tsx). *)
Module RegionPage.

(** One iteration of the loop of [findPath], with the recursive call on
    [region.children] inlined.  [path] is the array of [buildRegionPath]
    that [findPath] pushes to; the result is the value returned (whether
    the loop returns [true] in this iteration) and the array afterwards. *)
Fixpoint findPathIn (targetId : string) (currentPath : list string)
    (region : RegionTree.t) (path : list string) : bool * list string :=
  let newPath := currentPath ++ [Region.id (RegionTree.region region)] in
  if String.eqb (Region.id (RegionTree.region region)) targetId
  then (true, path ++ newPath)
  else
    (fix loop (currentRegions : list RegionTree.t) (path : list string)
       : bool * list string :=
       match currentRegions with
       | [] => (false, path)
       | child :: rest =>
           let '(found, path) := findPathIn targetId newPath child path in
           if found then (true, path) else loop rest path
       end) (RegionTree.children region) path.

Fixpoint findPath (currentRegions : list RegionTree.t) (target : RegionTree.t)
    (currentPath : list string) (path : list string) : bool * list string :=
  match currentRegions with
  | [] => (false, path)
  | region :: rest =>
      let '(found, path) :=
        findPathIn (Region.id (RegionTree.region target)) currentPath region path in
      if found then (true, path) else findPath rest target currentPath path
  end.

Definition buildRegionPath (regions : list RegionTree.t) (targetRegion : RegionTree.t)
  : list string :=
  snd (findPath regions targetRegion [] []).

(** The loop of [buildBreadcrumbFromPath] from index [i] on; [rest] holds
    [urlPath[i]], [urlPath[i+1]], ... *)
Fixpoint breadcrumbLoop (regions : list RegionTree.t) (urlPath rest : list string)
    (i : nat) (breadcrumb : list BreadcrumbItem.t) : list BreadcrumbItem.t :=
  match rest with
  | [] => breadcrumb
  | regionId :: rest' =>
      let breadcrumb :=
        match findRegionById regions regionId with
        | Some region =>
            breadcrumb ++
            [ {| BreadcrumbItem.id := Region.id (RegionTree.region region);
                 BreadcrumbItem.name := Region.name (RegionTree.region region);
                 BreadcrumbItem.path := "/region/" +:+ joinPath (take (i + 1) urlPath) |} ]
        | None => breadcrumb
        end in
      breadcrumbLoop regions urlPath rest' (S i) breadcrumb
  end.

Definition buildBreadcrumbFromPath (regions : list RegionTree.t)
    (urlPath : list string) : list BreadcrumbItem.t :=
  breadcrumbLoop regions urlPath urlPath 0 [].

(** [a || b] on values that are a region or [null]. *)
Definition orElse (a b : option RegionTree.t) : option RegionTree.t :=
  match a with Some r => Some r | None => b end.

Definition navigateToPath (regions : list RegionTree.t) (urlPath : list string)
    (st : Nav.t) : Nav.t :=
  match last urlPath with
  | None =>
      let worldRegion :=
        orElse (findRegionById regions "world")
          (orElse (List.find (fun r => String.eqb (Region.admin_level (RegionTree.region r))
                                         "World") regions)
                  (head regions)) in
      {| Nav.currentRegion := worldRegion;
         Nav.currentPath :=
           match worldRegion with
           | Some w =>
               [ {| BreadcrumbItem.id := Region.id (RegionTree.region w);
                    BreadcrumbItem.name := Region.name (RegionTree.region w);
                    BreadcrumbItem.path := "/region/" +:+ Region.id (RegionTree.region w) |} ]
           | None => []
           end;
         Nav.pushed := Nav.pushed st |}
  | Some targetRegionId =>
      match findRegionById regions targetRegionId with
      | Some region =>
          {| Nav.currentRegion := Some region;
             Nav.currentPath := buildBreadcrumbFromPath regions urlPath;
             Nav.pushed := Nav.pushed st |}
      | None =>
          {| Nav.currentRegion := Nav.currentRegion st;
             Nav.currentPath := Nav.currentPath st;
             Nav.pushed := Some "/" |}
      end
  end.

Definition handleRegionSelect (regions : list RegionTree.t) (region : RegionTree.t)
    (st : Nav.t) : Nav.t :=
  let urlPath := buildRegionPath regions region in
  let newUrl := "/region/" +:+ joinPath urlPath in
  {| Nav.currentRegion := Nav.currentRegion st;
     Nav.currentPath := Nav.currentPath st;
     Nav.pushed := Some newUrl |}.

Definition handleBackNavigation (st : Nav.t) : Nav.t :=
  let currentPath := Nav.currentPath st in
  let target :=
    if Nat.ltb 1 (length currentPath) then
      match currentPath !! (length currentPath - 2) with
      | Some parent => BreadcrumbItem.path parent
      | None => "/"
      end
    else "/" in
  {| Nav.currentRegion := Nav.currentRegion st;
     Nav.currentPath := currentPath;
     Nav.pushed := Some target |}.

Definition getCurrentRegions (regions : list RegionTree.t) (st : Nav.t)
  : list RegionTree.t :=
  match Nav.currentRegion st with
  | None => regions
  | Some currentRegion => RegionTree.children currentRegion
  end.

End RegionPage.

(** The ids from a top-level region of [regions] down to [node], each one
    the id of a child of the region before it. *)
Inductive chainIn : list RegionTree.t -> list string -> RegionTree.t -> Prop :=
  | chain_here regions node :
      node ∈ regions ->
      chainIn regions [Region.id (RegionTree.region node)] node
  | chain_down regions parent ids node :
      parent ∈ regions ->
      chainIn (RegionTree.children parent) ids node ->
      chainIn regions (Region.id (RegionTree.region parent) :: ids) node.

(** Whether an id names a region of the hierarchy. *)
Definition known (regions : list RegionTree.t) (id : string) : bool :=
  match findRegionById regions id with Some _ => true | None => false end.

(** The URL of each prefix of a path: [/region/a], [/region/a/b], ... *)
Definition prefixUrls (urlPath : list string) : list string :=
  map (fun i => "/region/" +:+ joinPath (take (S i) urlPath)) (seq 0 (length urlPath)).

(** The region page that builds paths by following [parent_id]
    (the later revision of the page). *)
Module RegionPageByParent.

(** The parent that [buildPath] moves to: [parent_id] must be set and not
    the empty string (an empty string is falsy), and a region of the
    hierarchy must have that id. *)
Definition parentOf (regions : list RegionTree.t) (region : RegionTree.t)
  : option RegionTree.t :=
  match Region.parent_id (RegionTree.region region) with
  | Some parentId =>
      if String.eqb parentId "" then None else findRegionById regions parentId
  | None => None
  end.

(** [buildPath] of [buildRegionPath]: first the parent, if there is one,
    then [path.push] of the own id.  The recursion follows [parent_id], not
    the structure of the tree, and need not end: [fuel] bounds the number
    of nested calls, and [None] means that the bound was reached. *)
Fixpoint buildPathPush (fuel : nat) (regions : list RegionTree.t)
    (currentRegion : RegionTree.t) (path : list string) : option (list string) :=
  match fuel with
  | 0 => None
  | S fuel =>
      let afterParent :=
        match parentOf regions currentRegion with
        | Some parent => buildPathPush fuel regions parent path
        | None => Some path
        end in
      match afterParent with
      | Some path => Some (path ++ [Region.id (RegionTree.region currentRegion)])
      | None => None
      end
  end.

Definition buildRegionPath (fuel : nat) (regions : list RegionTree.t)
    (region : RegionTree.t) : option (list string) :=
  buildPathPush fuel regions region [].

(** [buildPath] of [buildCompleteHierarchy]: the own id is put in front of
    the path built so far, and the call goes on with the parent. *)
Fixpoint buildPath (fuel : nat) (regions : list RegionTree.t)
    (region : RegionTree.t) (path : list string) : option (list string) :=
  match fuel with
  | 0 => None
  | S fuel =>
      let newPath := Region.id (RegionTree.region region) :: path in
      match parentOf regions region with
      | Some parent => buildPath fuel regions parent newPath
      | None => Some newPath
      end
  end.

(** The region reached from [region] by [k] steps to the parent. *)
Fixpoint ancestor (regions : list RegionTree.t) (k : nat) (region : RegionTree.t)
  : option RegionTree.t :=
  match k with
  | 0 => Some region
  | S k =>
      match parentOf regions region with
      | Some parent => ancestor regions k parent
      | None => None
      end
  end.

(** [buildCompleteHierarchy]: the ids from the top-most ancestor to the
    target, then one breadcrumb item for each id that names a region, by
    the same loop as in the earlier revision. *)
Definition buildCompleteHierarchy (fuel : nat) (regions : list RegionTree.t)
    (targetRegion : RegionTree.t) : option (list BreadcrumbItem.t) :=
  match buildPath fuel regions targetRegion [] with
  | Some fullPath => Some (RegionPage.breadcrumbLoop regions fullPath fullPath 0 [])
  | None => None
  end.

Definition buildBreadcrumbFromPath (fuel : nat) (regions : list RegionTree.t)
    (urlPath : list string) : option (list BreadcrumbItem.t) :=
  match last urlPath with
  | None => Some []
  | Some targetRegionId =>
      match findRegionById regions targetRegionId with
      | None => Some []
      | Some targetRegion => buildCompleteHierarchy fuel regions targetRegion
      end
  end.

(** [navigateToPath]; [fetchRegion] is [api.regions.get], which gives the
    region or fails.  The result is [None] when the recursion of
    [buildCompleteHierarchy] does not return within [fuel] nested calls. *)
Definition navigateToPath (fuel : nat) (regions : list RegionTree.t)
    (fetchRegion : string -> option RegionTree.t) (urlPath : list string)
    (st : Nav.t) : option Nav.t :=
  match last urlPath with
  | None =>
      let worldRegion :=
        RegionPage.orElse (findRegionById regions "world")
          (RegionPage.orElse
             (List.find (fun r => String.eqb (Region.admin_level (RegionTree.region r))
                                    "World") regions)
             (if Nat.ltb 0 (length regions) then head regions else None)) in
      Some {| Nav.currentRegion := worldRegion;
              Nav.currentPath :=
                match worldRegion with
                | Some w =>
                    [ {| BreadcrumbItem.id := Region.id (RegionTree.region w);
                         BreadcrumbItem.name := Region.name (RegionTree.region w);
                         BreadcrumbItem.path :=
                           "/region/" +:+ Region.id (RegionTree.region w) |} ]
                | None => []
                end;
              Nav.pushed := Nav.pushed st |}
  | Some targetRegionId =>
      match findRegionById regions targetRegionId with
      | None =>
          match fetchRegion targetRegionId with
          | Some fetchedRegion =>
              match buildBreadcrumbFromPath fuel regions urlPath with
              | Some breadcrumb =>
                  Some {| Nav.currentRegion := Some fetchedRegion;
                          Nav.currentPath := breadcrumb;
                          Nav.pushed := Nav.pushed st |}
              | None => None
              end
          | None =>
              Some {| Nav.currentRegion := Nav.currentRegion st;
                      Nav.currentPath := Nav.currentPath st;
                      Nav.pushed := Some "/" |}
          end
      | Some region =>
          match buildBreadcrumbFromPath fuel regions urlPath with
          | Some breadcrumb =>
              Some {| Nav.currentRegion := Some region;
                      Nav.currentPath := breadcrumb;
                      Nav.pushed := Nav.pushed st |}
          | None => None
          end
      end
  end.

End RegionPageByParent.

(** ** File sizes *)

(** [x.toFixed(1)] for [x = num / den], as the number of tenths shown: the
    integer [n] for which [n / 10] is closest to [x], the larger one of two
    that are equally close. *)
Definition roundTenths (num den : N) : N := ((20 * num + den) / (2 * den))%N.

(** The digits of [toFixed(1)]: the tenths with a point before the last
    digit. *)
Definition showTenths (n : N) : string :=
  pretty (n / 10)%N +:+ "." +:+ pretty (n mod 10)%N.

(** [formatFileSize] of the region card, the region list and the comparison
    modal.  [bytes] is a size in bytes, a whole number below 2^53: for such
    a number the divisions by 1024 and by 1024 * 1024 are exact in binary64,
    so that [mb < 1] is [bytes < 1048576] and [toFixed] rounds the exact
    quotients. *)
Definition formatFileSize (bytes : N) : string :=
  if (bytes <? 1048576)%N
  then showTenths (roundTenths bytes 1024) +:+ " KB"
  else showTenths (roundTenths bytes 1048576) +:+ " MB".

(** ** Score indicators of the quality-report modal *)

Inductive Icon := CheckCircle | AlertTriangle | XCircle.

Definition getScoreColor (score : float) : string :=
  if (90 <=? score)%float then "text-green-600"
  else if (70 <=? score)%float then "text-yellow-600"
  else "text-red-600".

(** The icon and its [className]. *)
Definition getScoreIcon (score : float) : Icon * string :=
  if (90 <=? score)%float then (CheckCircle, "h-5 w-5 text-green-600")
  else if (70 <=? score)%float then (AlertTriangle, "h-5 w-5 text-yellow-600")
  else (XCircle, "h-5 w-5 text-red-600").

(** ** Rows of the compact region list *)

(** The rows that [renderRegion] renders for a region, by their keys, in
    document order: the row of the region, then, when the region is
    expanded and has children, the rows of its children. *)
Fixpoint renderRegion (expandedRegions : gset string) (region : RegionTree.t)
  : list string :=
  let isExpanded := bool_decide (Region.id (RegionTree.region region) ∈ expandedRegions) in
  let hasChildren := Nat.ltb 0 (length (RegionTree.children region)) in
  Region.id (RegionTree.region region)
  :: (if (isExpanded && hasChildren)%bool
      then flat_map (renderRegion expandedRegions) (RegionTree.children region)
      else []).

(** [regions.map(region => renderRegion(region))]. *)
Definition renderRegions (expandedRegions : gset string) (regions : list RegionTree.t)
  : list string :=
  flat_map (renderRegion expandedRegions) regions.

(** ** Home page: the region shown first, the breadcrumb, the sub-regions *)

Module Crumb.
Record t := mk {
  id : string;
  name : string
}.
End Crumb.

Module HomePage.

Record t := mk {
  regions : list RegionTree.t;
  currentPath : list Crumb.t;
  selectedRegion : option RegionTree.t
}.

Definition crumbOf (region : RegionTree.t) : Crumb.t :=
  {| Crumb.id := Region.id (RegionTree.region region);
     Crumb.name := Region.name (RegionTree.region region) |}.

(** [admin_level === 0]: [admin_level] is a string, and a string is never
    strictly equal to a number. *)
Definition adminLevelIsNumber (region : RegionTree.t) (n : Z) : bool := false.

(** [loadRegions], when the request succeeds with [data]: the regions are
    stored and the region to show first is chosen among the top-level
    regions. *)
Definition loadRegions (data : list RegionTree.t) : t :=
  let worldRegion :=
    List.find (fun r => String.eqb (Region.id (RegionTree.region r)) "world") data in
  let worldRegion :=
    match worldRegion with
    | Some w => Some w
    | None => List.find (fun r => adminLevelIsNumber r 0) data
    end in
  let worldRegion :=
    match worldRegion with
    | Some w => Some w
    | None => List.find (fun r => Nat.ltb 0 (length (RegionTree.children r))) data
    end in
  let worldRegion :=
    match worldRegion with
    | Some w => Some w
    | None => if Nat.ltb 0 (length data) then head data else None
    end in
  match worldRegion with
  | Some w =>
      {| regions := data; currentPath := [crumbOf w]; selectedRegion := Some w |}
  | None =>
      {| regions := data;
         currentPath := [ {| Crumb.id := "all"; Crumb.name := "All Regions" |} ];
         selectedRegion := None |}
  end.

Definition worldCrumb : Crumb.t := {| Crumb.id := "world"; Crumb.name := "World" |}.

Definition handleRegionSelect (region : RegionTree.t) (st : t) : t :=
  let level := Region.admin_level (RegionTree.region region) in
  let currentPath :=
    if String.eqb level "World" then [crumbOf region]
    else if String.eqb level "Continent" then [worldCrumb; crumbOf region]
    else if String.eqb level "Country" then
      let continent :=
        List.find
          (fun r => existsb (fun child =>
                               String.eqb (Region.id (RegionTree.region child))
                                          (Region.id (RegionTree.region region)))
                            (RegionTree.children r))
          (regions st) in
      [worldCrumb]
      ++ match continent with Some c => [crumbOf c] | None => [] end
      ++ [crumbOf region]
    else currentPath st in
  {| regions := regions st; currentPath := currentPath; selectedRegion := Some region |}.

Definition handleBreadcrumbClick (breadcrumbId : string) (st : t) : t :=
  match findRegionById (regions st) breadcrumbId with
  | Some region => handleRegionSelect region st
  | None => st
  end.

Definition getCurrentRegions (st : t) : list RegionTree.t :=
  match selectedRegion st with
  | None => regions st
  | Some selected =>
      let level := Region.admin_level (RegionTree.region selected) in
      if String.eqb level "World" then RegionTree.children selected
      else if String.eqb level "Continent" then RegionTree.children selected
      else if String.eqb level "Country" then RegionTree.children selected
      else []
  end.

End HomePage.

(** ** Version-comparison modal: the versions selected by default *)

Section DefaultVersions.

(** [new Date(s).getTime()] for the creation dates of the files, which are
    taken to be well-formed dates. *)
Variable getTime : string -> Z.

(** The creation time of a file. *)
Definition timeOf (file : DataFile.t) : Z := getTime (DataFile.created_at file).

(** The comparison function given to [sort]: newer files first. *)
Definition newerFirst (a b : DataFile.t) : Z :=
  (getTime (DataFile.created_at b) - getTime (DataFile.created_at a))%Z.

(** [files.sort(newerFirst)].  The sort of an array is stable: files for
    which the comparison gives 0 keep their order. *)
Fixpoint insertFile (file : DataFile.t) (sorted : list DataFile.t) : list DataFile.t :=
  match sorted with
  | [] => [file]
  | first :: rest =>
      if (newerFirst file first <=? 0)%Z then file :: first :: rest
      else first :: insertFile file rest
  end.

Definition sortFiles (files : list DataFile.t) : list DataFile.t :=
  foldr insertFile [] files.

(** The effect that fills in the two selections when the modal is open and
    has at least two files: the first sorted file is the version to compare
    to, the second the version to compare from. *)
Definition selectDefaults (isOpen : bool) (files : list DataFile.t)
    (st : ComparisonModal.t) : ComparisonModal.t :=
  let sortedFiles := sortFiles files in
  if (isOpen && Nat.leb 2 (length sortedFiles))%bool then
    match sortedFiles with
    | newest :: previous :: _ =>
        {| ComparisonModal.fromVersion := DataFile.version previous;
           ComparisonModal.toVersion := DataFile.version newest;
           ComparisonModal.comparison := ComparisonModal.comparison st;
           ComparisonModal.loading := ComparisonModal.loading st;
           ComparisonModal.error := ComparisonModal.error st |}
    | _ => st
    end
  else st.

End DefaultVersions.

(** ** Download URLs *)

(** [ApiClient.getDownloadUrl]. *)
Definition getDownloadUrl (regionId version : string) : string :=
  "/download/" +:+ regionId +:+ "/" +:+ version.

(** Whether a string contains a slash. *)
Fixpoint hasSlash (s : string) : bool :=
  match s with
  | EmptyString => false
  | String c rest => (Ascii.eqb c "/"%char || hasSlash rest)%bool
  end.

(** ** Hierarchies whose parent ids match the tree *)

(** No two regions of the hierarchy have the same id; for a top-level
    region no parent is found; and every child names its parent in
    [parent_id], by an id that is not the empty string. *)
Definition linked (regions : list RegionTree.t) : Prop :=
  NoDup (map (fun n => Region.id (RegionTree.region n)) (preorderAll regions))
  /\ Forall (fun r => RegionPageByParent.parentOf regions r = None) regions
  /\ Forall (fun n =>
               Forall (fun c =>
                         Region.parent_id (RegionTree.region c)
                         = Some (Region.id (RegionTree.region n))
                         /\ Region.id (RegionTree.region n) <> "")
                      (RegionTree.children n))
            (preorderAll regions).

(** ** More sample data *)

(** A hierarchy whose parent ids match the tree. *)
Definition sampleHierarchy : list RegionTree.t :=
  [ RegionTree.mk (sampleRegion "world" None)
      [ RegionTree.mk (sampleRegion "europe" (Some "world"))
          [ sampleNode; leaf "monaco" (Some "europe") ] [];
        leaf "asia" (Some "world") ] [] ].

(** A region that names itself as its parent. *)
Definition selfParent : RegionTree.t := leaf "loop" (Some "loop").

(** A region of a level below Country, with a child. *)
Definition sampleDistrict : RegionTree.t :=
  RegionTree.mk
    {| Region.id := "vaduz";
       Region.name := "Vaduz";
       Region.admin_level := "SubRegion";
       Region.parent_id := Some "liechtenstein";
       Region.bounding_box := sampleBox;
       Region.area_km2 := None;
       Region.population := None;
       Region.country_code := None;
       Region.geofabrik_url := None;
       Region.has_children := true;
       Region.provides_data_services := true;
       Region.created_at := "2024-01-01T00:00:00Z";
       Region.updated_at := "2024-01-01T00:00:00Z" |}
    [ leaf "vaduz-centre" (Some "vaduz") ] [].

Definition olderFile : DataFile.t := {|
  DataFile.id := "liechtenstein/2023-12-01";
  DataFile.region_id := "liechtenstein";
  DataFile.version := "2023-12-01";
  DataFile.file_path := "liechtenstein/2023-12-01";
  DataFile.file_size := 2000;
  DataFile.format := OsmPbf;
  DataFile.created_at := "2023-12-01T00:00:00Z";
  DataFile.is_latest := false;
  DataFile.quality_report_id := None |}.

(** The times of the two sample creation dates, in milliseconds. *)
Definition sampleTime (date : string) : Z :=
  if String.eqb date "2023-12-01T00:00:00Z" then 1701388800000
  else if String.eqb date "2024-01-01T00:00:00Z" then 1704067200000
  else 0.

(** ** Change indicators of the version-comparison modal *)

Inductive ChangeIcon := PlusIcon | MinusIcon | NoIcon.

Definition getChangeIcon (value : float) : ChangeIcon :=
  if (0 <? value)%float then PlusIcon
  else if (value <? 0)%float then MinusIcon
  else NoIcon.

Definition getChangeColor (value : float) : string :=
  if (0 <? value)%float then "text-green-600"
  else if (value <? 0)%float then "text-red-600"
  else "text-gray-600".
(** ** Properties of the region lookup *)

Lemma findIn_unfold id node :
  findIn id node =
    if hasId id node then Some node
    else findRegionById (RegionTree.children node) id.
Proof.
  destruct node as [r cs fs]; unfold hasId; simpl.
  destruct (String.eqb (Region.id r) id); [reflexivity|].
  induction cs as [|c cs IH]; simpl; [reflexivity|].
  destruct (findIn id c); [reflexivity|exact IH].
Qed.

(** The loop of the source, one iteration at a time. *)
Lemma findRegionById_cons region rest id :
  findRegionById (region :: rest) id =
    if hasId id region then Some region
    else match findRegionById (RegionTree.children region) id with
         | Some found => Some found
         | None => findRegionById rest id
         end.
Proof.
  simpl. rewrite findIn_unfold. destruct (hasId id region); reflexivity.
Qed.

Lemma find_app_first {A} (p : A -> bool) (l1 l2 : list A) :
  List.find p (l1 ++ l2) =
    match List.find p l1 with Some x => Some x | None => List.find p l2 end.
Proof.
  induction l1 as [|a l1 IH]; simpl; [reflexivity|].
  destruct (p a); [reflexivity|exact IH].
Qed.

Lemma findIn_preorder id node :
  findIn id node = List.find (hasId id) (preorder node).
Proof.
  induction node as [r cs fs IH] using RegionTree_ind.
  rewrite findIn_unfold. simpl preorder. simpl List.find.
  destruct (hasId id (RegionTree.mk r cs fs)); [reflexivity|].
  simpl RegionTree.children.
  induction IH as [|c cs Hc _ IHcs]; simpl; [reflexivity|].
  rewrite find_app_first, <- Hc, <- IHcs.
  reflexivity.
Qed.

Lemma findRegionById_preorder regionList id :
  findRegionById regionList id = List.find (hasId id) (preorderAll regionList).
Proof.
  unfold preorderAll.
  induction regionList as [|t rest IH]; simpl; [reflexivity|].
  rewrite find_app_first, <- findIn_preorder, IH. reflexivity.
Qed.

Lemma hasId_true id node :
  hasId id node = true <-> Region.id (RegionTree.region node) = id.
Proof. unfold hasId. apply String.eqb_eq. Qed.

(** C8. [findRegionById] returns the first node, in depth-first pre-order
    over the whole forest, whose [region.id] is the searched id.  It returns
    [None] exactly when no node at any depth carries that id, and a node it
    returns carries the searched id and belongs to the forest. *)
Theorem findRegionById_first_match (regionList : list RegionTree.t) (id : string) :
  findRegionById regionList id = List.find (hasId id) (preorderAll regionList)
  /\ (findRegionById regionList id = None <->
      forall node, node ∈ preorderAll regionList ->
                   Region.id (RegionTree.region node) <> id)
  /\ (forall found, findRegionById regionList id = Some found ->
        Region.id (RegionTree.region found) = id /\
        found ∈ preorderAll regionList).
Proof.
  rewrite findRegionById_preorder.
  split; [reflexivity|split].
  - split.
    + intros Hnone node Hin Hid.
      apply list_elem_of_In in Hin.
      pose proof (List.find_none _ _ Hnone node Hin) as Hf.
      apply hasId_true in Hid. congruence.
    + intros Hall.
      destruct (List.find (hasId id) (preorderAll regionList)) as [n|] eqn:Hf;
        [|reflexivity].
      apply List.find_some in Hf as [Hin Hid].
      exfalso. apply (Hall n); [by apply list_elem_of_In|by apply hasId_true].
  - intros found Hf. apply List.find_some in Hf as [Hin Hid].
    split; [by apply hasId_true|by apply list_elem_of_In].
Qed.

(** ** Properties of the expand/collapse state *)

(** C10. One application of [toggleExpanded] flips the membership of the
    toggled id and of no other id; two applications with the same id, each
    on the state left by the previous one, restore the original set. *)
Theorem toggleExpanded_involution (expandedRegions : gset string) (regionId : string) :
  (regionId ∈ toggleExpanded expandedRegions regionId <-> regionId ∉ expandedRegions)
  /\ (forall other, other <> regionId ->
        (other ∈ toggleExpanded expandedRegions regionId <-> other ∈ expandedRegions))
  /\ toggleExpanded (toggleExpanded expandedRegions regionId) regionId = expandedRegions.
Proof.
  assert (Hflip : forall s : gset string,
            (regionId ∈ toggleExpanded s regionId <-> regionId ∉ s)
            /\ (forall other, other <> regionId ->
                  (other ∈ toggleExpanded s regionId <-> other ∈ s))).
  { intros s. unfold toggleExpanded; simpl.
    destruct (decide (regionId ∈ s)) as [Hin|Hout]; split.
    - rewrite elem_of_difference, elem_of_singleton. tauto.
    - intros other Hne. rewrite elem_of_difference, elem_of_singleton. tauto.
    - rewrite elem_of_union, elem_of_singleton. tauto.
    - intros other Hne. rewrite elem_of_union, elem_of_singleton. tauto. }
  destruct (Hflip expandedRegions) as [Hid Hother].
  split; [exact Hid|]. split; [exact Hother|].
  apply set_eq. intros x.
  destruct (Hflip (toggleExpanded expandedRegions regionId)) as [Hid2 Hother2].
  destruct (decide (x = regionId)) as [->|Hne].
  - rewrite Hid2, Hid.
    destruct (decide (regionId ∈ expandedRegions)); tauto.
  - rewrite (Hother2 x Hne). exact (Hother x Hne).
Qed.

(** ** Properties of the zoom level *)

(** Order facts on binary64 values, through their specification. *)
Lemma SFltb_SFleb_trans (a b c : spec_float) :
  SFltb a b = true -> SFleb b c = true -> SFltb a c = true.
Proof.
  unfold SFltb, SFleb, SFcompare.
  destruct a as [[]|[]| |[] ma ea], b as [[]|[]| |[] mb eb],
    c as [[]|[]| |[] mc ec]; simpl; try congruence;
    change (Pos.compare_cont Eq ?p ?q) with (Pos.compare p q);
    repeat match goal with
      | |- context [Z.compare ?x ?y] => destruct (Z.compare_spec x y)
      | |- context [Pos.compare ?x ?y] => destruct (Pos.compare_spec x y)
      end; simpl; subst; try congruence; try lia.
Qed.

Lemma float_ltb_leb_trans (c d2 d1 : float) :
  (c <? d2)%float = true -> (d2 <=? d1)%float = true -> (c <? d1)%float = true.
Proof. rewrite !ltb_spec, leb_spec. apply SFltb_SFleb_trans. Qed.

Ltac split_thresholds d :=
  repeat match goal with
    | |- context [(?c <? d)%float] => destruct (c <? d)%float
    end.

(** C9. [calculateZoom] returns an integer between 3 and 10, and a box
    whose larger extent is greater than or equal to that of another box
    never gets a larger zoom than the other box. *)
Theorem calculateZoom_range_antitone (bbox other : BoundingBox.t) :
  calculateZoom bbox ∈ [3; 4; 5; 6; 7; 8; 9; 10]%Z
  /\ (3 <= calculateZoom bbox <= 10)%Z
  /\ ((maxDiffOf other <=? maxDiffOf bbox)%float = true ->
      (calculateZoom bbox <= calculateZoom other)%Z).
Proof.
  unfold calculateZoom.
  generalize (maxDiffOf bbox) (maxDiffOf other). intros d1 d2.
  split; [|split].
  - split_thresholds d1; set_unfold; tauto.
  - split_thresholds d1; lia.
  - intros Hge.
    pose proof (fun c H => float_ltb_leb_trans c d2 d1 H Hge) as Hup.
    destruct (50 <? d2)%float eqn:E50;
      [rewrite (Hup _ E50); split_thresholds d1; lia|].
    destruct (20 <? d2)%float eqn:E20;
      [rewrite (Hup _ E20); split_thresholds d1; lia|].
    destruct (10 <? d2)%float eqn:E10;
      [rewrite (Hup _ E10); split_thresholds d1; lia|].
    destruct (5 <? d2)%float eqn:E5;
      [rewrite (Hup _ E5); split_thresholds d1; lia|].
    destruct (2 <? d2)%float eqn:E2;
      [rewrite (Hup _ E2); split_thresholds d1; lia|].
    destruct (1 <? d2)%float eqn:E1;
      [rewrite (Hup _ E1); split_thresholds d1; lia|].
    destruct (0.5 <? d2)%float eqn:E05;
      [rewrite (Hup _ E05); split_thresholds d1; lia|].
    split_thresholds d1; lia.
Qed.

(** ** Properties of processing jobs *)

(** C7, as the code has it: the job types are the four values Download,
    Process, QualityAnalysis and Cleanup.  Every job carries one of them,
    and a string names a job type exactly when it is one of these four. *)
Theorem job_type_one_of_four (job : ProcessingJob.t) (name : string) :
  jobTypeName (ProcessingJob.job_type job)
    ∈ ["Download"; "Process"; "QualityAnalysis"; "Cleanup"]
  /\ ((exists t, jobTypeName t = name) <->
      name ∈ ["Download"; "Process"; "QualityAnalysis"; "Cleanup"]).
Proof.
  split.
  - destruct (ProcessingJob.job_type job); simpl; set_unfold; tauto.
  - split.
    + intros [t <-]. destruct t; simpl; set_unfold; tauto.
    + intros Hin. set_unfold.
      destruct Hin as [->|[->|[->|[->|[]]]]];
        [exists Download|exists Process|exists QualityAnalysis|exists Cleanup];
        reflexivity.
Qed.

(** C7, as stated, fails: Process is a job type and is not one of
    Download, Decode, QualityAnalysis, Cleanup; and no job type is named
    Decode. *)
Lemma job_type_Process_not_Decode :
  (jobTypeName Process ∉ ["Download"; "Decode"; "QualityAnalysis"; "Cleanup"])
  /\ ~ (exists t, jobTypeName t = "Decode").
Proof.
  split.
  - simpl. set_unfold. intros [H|[H|[H|[H|[]]]]]; discriminate H.
  - intros [t H]. destruct t; discriminate H.
Qed.

Lemma stepJob_status busy e job :
  ProcessingJob.status (stepJob busy e job) = ProcessingJob.status job
  \/ transition (ProcessingJob.status job) (ProcessingJob.status (stepJob busy e job)).
Proof.
  unfold stepJob.
  destruct job as [id rid ty [] p msg c s d], e as [now|now|err now|now];
    cbn -[Nat.leb]; try (left; reflexivity).
  - destruct busy; cbn; [left; reflexivity|right; constructor].
  - destruct (Nat.leb 100 (p + 25)); cbn; [right; constructor|left; reflexivity].
  - right; constructor.
  - right; constructor.
Qed.

Lemma requestProcessing_jobs now regionId jobs :
  snd (requestProcessing now regionId jobs) = jobs
  \/ exists job, requestProcessing now regionId jobs = (inr job, jobs ++ [job])
                 /\ ProcessingJob.status job = Pending
                 /\ ProcessingJob.region_id job = regionId.
Proof.
  unfold requestProcessing.
  destruct (hasRunningJob jobs regionId); [left; reflexivity|].
  right. eexists. split; [reflexivity|]. split; reflexivity.
Qed.

Lemma act_existing jobs a i job :
  jobs !! i = Some job ->
  exists job', act jobs a !! i = Some job'
    /\ (ProcessingJob.status job' = ProcessingJob.status job
        \/ transition (ProcessingJob.status job) (ProcessingJob.status job')).
Proof.
  intros Hi. destruct a as [now regionId|k e]; simpl.
  - destruct (requestProcessing_jobs now regionId jobs) as [->|(new & -> & _)].
    + exists job. auto.
    + exists job. split; [|auto]. simpl. by apply lookup_app_l_Some.
  - destruct (jobs !! k) as [jk|] eqn:Hk; [|exists job; auto].
    destruct (decide (k = i)) as [->|Hne].
    + assert (jk = job) as -> by congruence.
      eexists. split; [|apply stepJob_status].
      apply list_lookup_insert_eq. by eapply lookup_lt_Some.
    + exists job. split; [|auto]. by rewrite list_lookup_insert_ne.
Qed.

Lemma act_created jobs a i job' :
  jobs !! i = None -> act jobs a !! i = Some job' ->
  ProcessingJob.status job' = Pending.
Proof.
  intros Hnone. destruct a as [now regionId|k e]; simpl.
  - destruct (requestProcessing_jobs now regionId jobs) as [->|(new & -> & Hp & _)].
    + congruence.
    + simpl. intros Hl. apply lookup_ge_None in Hnone.
      rewrite lookup_app_r in Hl by exact Hnone.
      destruct (i - length jobs) as [|n]; simpl in Hl; [congruence|].
      discriminate Hl.
  - destruct (jobs !! k) as [jk|] eqn:Hk; [|congruence].
    intros Hl. apply lookup_lt_Some in Hl. rewrite length_insert in Hl.
    apply lookup_ge_None in Hnone. lia.
Qed.

Lemma terminal_no_transition s s' : terminal s = true -> transition s s' -> False.
Proof. intros Ht Htr. destruct Htr; discriminate Ht. Qed.

Lemma run_terminal actions : forall jobs i job,
  jobs !! i = Some job -> terminal (ProcessingJob.status job) = true ->
  exists job', run jobs actions !! i = Some job'
    /\ ProcessingJob.status job' = ProcessingJob.status job.
Proof.
  unfold run.
  induction actions as [|a actions IH]; intros jobs i job Hi Ht; simpl.
  - exists job. auto.
  - destruct (act_existing jobs a i job Hi) as (job1 & H1 & [Heq|Htr]).
    + destruct (IH (act jobs a) i job1 H1) as (job' & H' & Hs').
      * by rewrite Heq.
      * exists job'. split; [exact H'|congruence].
    + exfalso. eapply terminal_no_transition; eauto.
Qed.

Lemma hasRunningJob_app jobs more regionId :
  hasRunningJob (jobs ++ more) regionId
  = (hasRunningJob jobs regionId || hasRunningJob more regionId)%bool.
Proof. unfold hasRunningJob. apply existsb_app. Qed.

Lemma act_on_job jobs i e job :
  jobs !! i = Some job ->
  act jobs (OnJob i e) !! i
  = Some (stepJob (hasRunningJob jobs (ProcessingJob.region_id job)) e job).
Proof.
  intros Hi. simpl. rewrite Hi.
  apply list_lookup_insert_eq. by eapply lookup_lt_Some.
Qed.

Lemma stepJob_started busy e job :
  ProcessingJob.status job <> Pending ->
  stepJob busy e job = stepJob false e job
  /\ ProcessingJob.status (stepJob false e job) <> Pending.
Proof.
  intros Hs. split.
  - unfold stepJob. destruct (ProcessingJob.status job), e; congruence.
  - destruct (stepJob_status false e job) as [->|Htr]; [exact Hs|].
    destruct Htr; congruence.
Qed.

(** A job that has left Pending evolves on its own: the events addressed to
    it are applied one after the other, whatever the other jobs are. *)
Lemma run_started events : forall jobs i job,
  jobs !! i = Some job -> ProcessingJob.status job <> Pending ->
  run jobs (OnJob i <$> events) !! i
  = Some (foldl (fun j e => stepJob false e j) job events).
Proof.
  unfold run.
  induction events as [|e events IH]; intros jobs i job Hi Hs; [exact Hi|].
  cbn [fmap list_fmap foldl].
  destruct (stepJob_started (hasRunningJob jobs (ProcessingJob.region_id job)) e job Hs)
    as [Heq Hs'].
  apply IH; [|exact Hs'].
  rewrite (act_on_job jobs i e job Hi), Heq. reflexivity.
Qed.

(** A freshly admitted job, once dequeued, runs the events of its pipeline. *)
Lemma run_admitted jobs now regionId t events :
  hasRunningJob jobs regionId = false ->
  exists job,
    requestProcessing now regionId jobs = (inr job, jobs ++ [job])
    /\ ProcessingJob.status job = Pending
    /\ ProcessingJob.progress job = 0
    /\ run (jobs ++ [job]) (OnJob (length jobs) <$> (Dequeue t :: events)) !! length jobs
       = Some (foldl (fun j e => stepJob false e j) (setRunning t job) events).
Proof.
  intros Hfree. unfold requestProcessing. rewrite Hfree.
  eexists. split; [reflexivity|]. split; [reflexivity|]. split; [reflexivity|].
  match goal with |- run (jobs ++ [?j]) _ !! _ = _ => set (job := j) end.
  assert (Hat : (jobs ++ [job]) !! length jobs = Some job).
  { rewrite lookup_app_r by lia. by rewrite Nat.sub_diag. }
  cbn [fmap list_fmap]. unfold run. cbn [foldl]. fold (run (act (jobs ++ [job])
    (OnJob (length jobs) (Dequeue t))) (OnJob (length jobs) <$> events)).
  apply run_started; [|discriminate].
  rewrite (act_on_job _ _ _ _ Hat), hasRunningJob_app. cbn [ProcessingJob.region_id job].
  rewrite Hfree.
  assert (hasRunningJob [job] regionId = false) as ->.
  { unfold hasRunningJob, isRunning. cbn. by rewrite andb_false_r. }
  reflexivity.
Qed.

(** C4. A job enters the orchestrator's history in Pending and in no other
    status; whatever the orchestrator does, the status of a job stays the
    same or moves along Pending -> Running or Running -> Completed, Failed
    or Cancelled; a job in Completed, Failed or Cancelled keeps its status
    for ever.  A request for a region with no Running job returns a Pending
    job; dequeued, the job is Running; it is then Completed after its four
    stages, Failed on an error, Cancelled on an observed cancellation. *)
Theorem job_lifecycle (jobs : list ProcessingJob.t) (a : Action)
    (actions : list Action) (i : nat) (now regionId t error : string) :
  (forall created, jobs !! i = None -> act jobs a !! i = Some created ->
     ProcessingJob.status created = Pending)
  /\ (forall job, jobs !! i = Some job ->
        exists job', act jobs a !! i = Some job'
          /\ (ProcessingJob.status job' = ProcessingJob.status job
              \/ transition (ProcessingJob.status job) (ProcessingJob.status job')))
  /\ (forall job, jobs !! i = Some job ->
        terminal (ProcessingJob.status job) = true ->
        statusAt (run jobs actions) i = Some (ProcessingJob.status job))
  /\ (hasRunningJob jobs regionId = false ->
      exists job,
        requestProcessing now regionId jobs = (inr job, jobs ++ [job])
        /\ ProcessingJob.status job = Pending
        /\ let h := length jobs in
           let queued := jobs ++ [job] in
           statusAt queued h = Some Pending
           /\ statusAt (run queued [OnJob h (Dequeue t)]) h = Some Running
           /\ statusAt (run queued [OnJob h (Dequeue t); OnJob h (StageDone t);
                                    OnJob h (StageDone t); OnJob h (StageDone t);
                                    OnJob h (StageDone t)]) h = Some Completed
           /\ statusAt (run queued [OnJob h (Dequeue t); OnJob h (StageDone t);
                                    OnJob h (StageFailed error t)]) h = Some Failed
           /\ statusAt (run queued [OnJob h (Dequeue t); OnJob h (StageDone t);
                                    OnJob h (StageDone t);
                                    OnJob h (CancelObserved t)]) h = Some Cancelled).
Proof.
  split; [intros created; apply act_created|].
  split; [intros job; apply act_existing|].
  split.
  - intros job Hi Ht.
    destruct (run_terminal actions jobs i job Hi Ht) as (job' & H' & Hs).
    unfold statusAt. rewrite H'. simpl. by rewrite Hs.
  - intros Hfree.
    destruct (run_admitted jobs now regionId t [] Hfree) as (job & Hreq & Hp & Hz & Hrun0).
    exists job. split; [exact Hreq|]. split; [exact Hp|].
    assert (Hjob : forall events, run (jobs ++ [job])
                     (OnJob (length jobs) <$> (Dequeue t :: events)) !! length jobs
                   = Some (foldl (fun j e => stepJob false e j) (setRunning t job) events)).
    { intros events.
      destruct (run_admitted jobs now regionId t events Hfree) as (job2 & Hreq2 & _ & _ & Hrun).
      assert (job2 = job) as -> by congruence. exact Hrun. }
    cbn zeta. unfold statusAt.
    split.
    { rewrite lookup_app_r by lia. rewrite Nat.sub_diag. simpl. by rewrite Hp. }
    split; [exact (f_equal (fmap ProcessingJob.status) (Hjob []))|].
    split; [|split].
    + pose proof (Hjob [StageDone t; StageDone t; StageDone t; StageDone t]) as H.
      cbn [fmap list_fmap] in H. rewrite H.
      unfold stepJob. cbn. rewrite Hz. reflexivity.
    + pose proof (Hjob [StageDone t; StageFailed error t]) as H.
      cbn [fmap list_fmap] in H. rewrite H.
      unfold stepJob. cbn. rewrite Hz. reflexivity.
    + pose proof (Hjob [StageDone t; StageDone t; CancelObserved t]) as H.
      cbn [fmap list_fmap] in H. rewrite H.
      unfold stepJob. cbn. rewrite Hz. reflexivity.
Qed.

(** ** Properties of the latest file *)

Lemma demote_not_latest files :
  Forall (fun f => DataFile.is_latest f = false) (map demote files).
Proof. apply Forall_forall. intros f Hin. apply list_elem_of_fmap in Hin as (g & -> & _). reflexivity. Qed.

Lemma demote_versions version files :
  existsb (hasVersion version) files = false ->
  Forall (fun f => DataFile.version f <> version) (map demote files).
Proof.
  induction files as [|g files IH]; simpl; [constructor|].
  intros H. apply orb_false_iff in H as [Hg Hrest].
  constructor; [|by apply IH].
  simpl. unfold hasVersion in Hg. by apply String.eqb_neq in Hg.
Qed.

Lemma publish_consistent now regionId version format bytes store :
  (forall r, regionConsistent store r) ->
  forall r, regionConsistent (snd (publish now regionId version format bytes store)) r.
Proof.
  intros Hall r. unfold publish.
  destruct (existsb (hasVersion version) (listVersions store regionId)) eqn:Hex;
    [apply Hall|].
  unfold regionConsistent, listVersions; simpl.
  destruct (decide (regionId = r)) as [->|Hne].
  - rewrite !lookup_insert_eq. simpl.
    split; [reflexivity|]. split; [reflexivity|].
    split; [apply demote_not_latest|by apply demote_versions].
  - rewrite !lookup_insert_ne by exact Hne. apply Hall.
Qed.

Lemma publishAll_consistent requests : forall store,
  (forall r, regionConsistent store r) ->
  forall r, regionConsistent (publishAll store requests) r.
Proof.
  unfold publishAll.
  induction requests as [|q requests IH]; intros store Hall; [exact Hall|].
  simpl. apply IH. by apply publish_consistent.
Qed.

Lemma empty_consistent r : regionConsistent ArtifactStore.empty r.
Proof. unfold regionConsistent, listVersions. simpl. rewrite !lookup_empty. reflexivity. Qed.

Lemma filter_none_latest files :
  Forall (fun f => DataFile.is_latest f = false) files ->
  List.filter DataFile.is_latest files = [].
Proof.
  induction 1 as [|f files Hf _ IH]; simpl; [reflexivity|]. by rewrite Hf.
Qed.

(** In a list with at most one latest file, [find] returns it. *)
Lemma latestFile_unique (data_files : list DataFile.t) (file : DataFile.t) :
  length (List.filter DataFile.is_latest data_files) <= 1 ->
  file ∈ data_files -> DataFile.is_latest file = true ->
  latestFile data_files = Some file.
Proof.
  unfold latestFile.
  induction data_files as [|g rest IH]; intros Hcount Hin Hl.
  - by apply elem_of_nil in Hin.
  - simpl in *. destruct (DataFile.is_latest g) eqn:Hg.
    + apply elem_of_cons in Hin as [->|Hin]; [reflexivity|].
      exfalso. simpl in Hcount.
      assert (Hfile : file ∈ List.filter DataFile.is_latest rest).
      { apply list_elem_of_In, List.filter_In. split; [by apply list_elem_of_In|exact Hl]. }
      destruct (List.filter DataFile.is_latest rest); [by apply elem_of_nil in Hfile|].
      simpl in Hcount. lia.
    + apply elem_of_cons in Hin as [->|Hin]; [congruence|].
      by apply IH.
Qed.

(** What [find] returns is a latest file of the list, and in a list with
    at most one latest file it returns exactly that one. *)
Lemma latestFile_Some (data_files : list DataFile.t) (file : DataFile.t) :
  length (List.filter DataFile.is_latest data_files) <= 1 ->
  latestFile data_files = Some file
  <-> file ∈ data_files /\ DataFile.is_latest file = true.
Proof.
  intros Hcount. split.
  - intros Hfind. apply List.find_some in Hfind as [Hin Hl].
    split; [by apply list_elem_of_In|exact Hl].
  - intros [Hin Hl]. by apply latestFile_unique.
Qed.

(** [find] returns nothing exactly when no file of the list is latest. *)
Lemma latestFile_None (data_files : list DataFile.t) :
  latestFile data_files = None
  <-> forall file, file ∈ data_files -> DataFile.is_latest file = false.
Proof.
  unfold latestFile. split.
  - intros Hnone file Hin.
    apply (List.find_none _ _ Hnone). by apply list_elem_of_In.
  - intros Hall. destruct (List.find DataFile.is_latest data_files) as [file|] eqn:Hfind;
      [|reflexivity].
    apply List.find_some in Hfind as [Hin Hl].
    apply list_elem_of_In in Hin. rewrite (Hall file Hin) in Hl. discriminate.
Qed.

(** The number of latest files does not depend on the order of the list. *)
Lemma count_latest_Permutation (served data_files : list DataFile.t) :
  served ≡ₚ data_files ->
  length (List.filter DataFile.is_latest served)
  = length (List.filter DataFile.is_latest data_files).
Proof.
  induction 1 as [|file l l' _ IH|f g l|l l' l'' _ IH1 _ IH2]; simpl.
  - reflexivity.
  - destruct (DataFile.is_latest file); simpl; by rewrite IH.
  - destruct (DataFile.is_latest f), (DataFile.is_latest g); reflexivity.
  - by rewrite IH1.
Qed.

(** After any sequence of publishes, the records of a region have at most
    one latest file, which is the record the latest pointer names. *)
Lemma publishAll_latest (requests : list PublishRequest) (regionId : string) :
  let store := publishAll ArtifactStore.empty requests in
  let data_files := listVersions store regionId in
  length (List.filter DataFile.is_latest data_files) <= 1
  /\ (forall file, file ∈ data_files /\ DataFile.is_latest file = true
                   <-> latest store regionId = inr file).
Proof.
  intros store data_files.
  pose proof (publishAll_consistent requests ArtifactStore.empty empty_consistent regionId)
    as Hc.
  fold store in Hc. unfold regionConsistent in Hc. unfold latest.
  fold data_files in Hc |- *.
  destruct data_files as [|newest older].
  - rewrite Hc. simpl. split; [lia|].
    intros file. split; [|discriminate].
    intros [Hin _]. by apply elem_of_nil in Hin.
  - destruct Hc as (Hnew & Hptr & Hold & Hver). rewrite Hptr. simpl.
    rewrite Hnew. unfold hasVersion at 1. rewrite String.eqb_refl.
    rewrite (filter_none_latest older Hold). simpl.
    split; [lia|]. intros file. split.
    + intros [Hin Hl]. apply elem_of_cons in Hin as [->|Hin]; [reflexivity|].
      rewrite Forall_forall in Hold. rewrite (Hold file Hin) in Hl. discriminate.
    + intros [= <-]. split; [apply list_elem_of_here|exact Hnew].
Qed.

(** C1. After any sequence of publishes, at most one record of a region
    has [is_latest] set.  The front end selects the latest file by a search
    for the first file with the flag: in every list with at most one
    flagged file, whatever the position of that file, the search returns
    the flagged file and no other, and it returns nothing exactly when no
    file is flagged.  So on the records of a region, in whatever order they
    are served, the search returns the record that the latest pointer of
    the store names. *)
Theorem at_most_one_latest (requests : list PublishRequest) (regionId : string)
    (served : list DataFile.t) :
  let store := publishAll ArtifactStore.empty requests in
  let data_files := listVersions store regionId in
  length (List.filter DataFile.is_latest data_files) <= 1
  /\ (forall file, file ∈ data_files -> DataFile.is_latest file = true ->
        latestFile data_files = Some file)
  /\ (forall file, latestFile data_files = Some file <-> latest store regionId = inr file)
  /\ (length (List.filter DataFile.is_latest served) <= 1 ->
      forall file, latestFile served = Some file
                   <-> file ∈ served /\ DataFile.is_latest file = true)
  /\ (latestFile served = None
      <-> forall file, file ∈ served -> DataFile.is_latest file = false)
  /\ (served ≡ₚ data_files ->
      length (List.filter DataFile.is_latest served) <= 1
      /\ forall file, latestFile served = Some file <-> latest store regionId = inr file).
Proof.
  intros store data_files.
  destruct (publishAll_latest requests regionId) as [Hcount Hptr].
  fold store data_files in Hcount, Hptr.
  split; [exact Hcount|]. split; [|split; [|split; [|split]]].
  - intros file Hin Hl. by apply latestFile_unique.
  - intros file. rewrite (latestFile_Some data_files file Hcount). apply Hptr.
  - intros Hserved file. by apply latestFile_Some.
  - apply latestFile_None.
  - intros Hperm.
    assert (Hserved : length (List.filter DataFile.is_latest served) <= 1).
    { by rewrite (count_latest_Permutation served data_files Hperm). }
    split; [exact Hserved|]. intros file.
    rewrite (latestFile_Some served file Hserved), <- Hptr.
    by rewrite Hperm.
Qed.

(** ** Properties of the quality scores *)

Lemma Qle_bool_false x y : Qle_bool x y = false -> (y < x)%Q.
Proof.
  intros H. apply Qnot_le_lt. intros Hle.
  apply Qle_bool_iff in Hle. congruence.
Qed.

Lemma clamp_bounds x : (0 <= clamp x <= 100)%Q.
Proof.
  unfold clamp.
  destruct (Qle_bool x 0) eqn:H0; [lra|].
  destruct (Qle_bool 100 x) eqn:H100; [lra|].
  apply Qle_bool_false in H0, H100. lra.
Qed.

Lemma clamp_at_0 x : (x == 0)%Q -> (clamp x == 0)%Q.
Proof.
  intros Hx. unfold clamp.
  assert (Qle_bool x 0 = true) as -> by (apply Qle_bool_iff; lra).
  reflexivity.
Qed.

Lemma clamp_at_100 x : (x == 100)%Q -> (clamp x == 100)%Q.
Proof.
  intros Hx. unfold clamp.
  destruct (Qle_bool x 0) eqn:H0; [apply Qle_bool_iff in H0; lra|].
  assert (Qle_bool 100 x = true) as -> by (apply Qle_bool_iff; lra).
  reflexivity.
Qed.

Lemma ofNat_nonzero n : n <> 0 -> ~ (ofNat n == 0)%Q.
Proof.
  intros Hn H. unfold ofNat, Qeq in H. simpl in H. lia.
Qed.

Lemma completeness_all_tagged d :
  allTagged d -> totalFeatures d <> 0 -> (completenessOf d == 100)%Q.
Proof.
  intros (Hn & Hw & Hr) Hpos. unfold completenessOf.
  destruct (Nat.eqb_spec (totalFeatures d) 0) as [H0|_]; [contradiction|].
  apply clamp_at_100.
  assert (taggedFeatures d = totalFeatures d) as ->
    by (unfold taggedFeatures, totalFeatures; congruence).
  field. by apply ofNat_nonzero.
Qed.

Lemma accuracy_error_free cfg d :
  errorFree d -> (accuracyOf cfg d == 100)%Q.
Proof.
  intros (Hg & _ & Ht). unfold accuracyOf, penaltyOf.
  destruct (Nat.eqb_spec (totalFeatures d) 0) as [H0|Hpos].
  - rewrite (clamp_at_0 0) by reflexivity. lra.
  - rewrite clamp_at_0; [lra|].
    rewrite Hg, Ht. unfold ofNat at 1 2. simpl inject_Z.
    field. by apply ofNat_nonzero.
Qed.

Lemma ofNat_le m n : m <= n -> (ofNat m <= ofNat n)%Q.
Proof. intros H. unfold ofNat, Qle. simpl. lia. Qed.

Lemma ofNat_lt m n : m < n -> (ofNat m < ofNat n)%Q.
Proof. intros H. unfold ofNat, Qlt. simpl. lia. Qed.

Lemma clamp_inside x : (0 <= x <= 100)%Q -> (clamp x == x)%Q.
Proof.
  intros [Hlo Hhi]. unfold clamp.
  destruct (Qle_bool x 0) eqn:H0; [apply Qle_bool_iff in H0; lra|].
  destruct (Qle_bool 100 x) eqn:H100; [apply Qle_bool_iff in H100; lra|].
  reflexivity.
Qed.

Lemma clamp_above x : (100 <= x)%Q -> (clamp x == 100)%Q.
Proof.
  intros Hx. unfold clamp.
  destruct (Qle_bool x 0) eqn:H0; [apply Qle_bool_iff in H0; lra|].
  assert (Qle_bool 100 x = true) as -> by (by apply Qle_bool_iff).
  reflexivity.
Qed.

(** C5.  With no feature the completeness is 0.  Otherwise it is
    100 x tagged / total clamped to [0,100]: the ratio itself when the
    tagged features do not outnumber the features, and 100 when they do.
    It always lies in [0,100].  On an all-tagged, error-free dataset,
    completeness and accuracy are 100; the dataset has a feature there, the
    dataset with none being the case of completeness 0 above. *)
Theorem analyze_completeness (cfg : AnalyzerConfig.t) (reportId now : string)
    (d : DecodedDataset.t) (region : Region.t) :
  let report := analyze cfg reportId now d region in
  let tagged := ofNat (taggedFeatures d) in
  let total := ofNat (totalFeatures d) in
  (totalFeatures d = 0 -> (QualityReport.completeness_score report == 0)%Q)
  /\ (totalFeatures d <> 0 ->
      (QualityReport.completeness_score report == clamp (100 * tagged / total))%Q)
  /\ (totalFeatures d <> 0 -> taggedFeatures d <= totalFeatures d ->
      (QualityReport.completeness_score report == 100 * tagged / total)%Q)
  /\ (totalFeatures d <> 0 -> totalFeatures d < taggedFeatures d ->
      (QualityReport.completeness_score report == 100)%Q)
  /\ (0 <= QualityReport.completeness_score report <= 100)%Q
  /\ (allTagged d -> errorFree d -> totalFeatures d <> 0 ->
      (QualityReport.completeness_score report == 100)%Q
      /\ (QualityReport.accuracy_score report == 100)%Q).
Proof.
  cbn zeta. unfold analyze. cbn [QualityReport.completeness_score QualityReport.accuracy_score].
  assert (Hdef : totalFeatures d <> 0 ->
                 completenessOf d
                 = clamp (100 * ofNat (taggedFeatures d) / ofNat (totalFeatures d))%Q).
  { intros Hpos. unfold completenessOf.
    destruct (Nat.eqb_spec (totalFeatures d) 0); [contradiction|reflexivity]. }
  assert (Hpos' : totalFeatures d <> 0 -> (0 < ofNat (totalFeatures d))%Q).
  { intros Hpos. apply (ofNat_lt 0). lia. }
  split; [|split; [|split; [|split; [|split]]]].
  - intros H0. unfold completenessOf. rewrite H0. reflexivity.
  - intros Hpos. rewrite (Hdef Hpos). reflexivity.
  - intros Hpos Hle. rewrite (Hdef Hpos). apply clamp_inside.
    pose proof (Hpos' Hpos) as Hn. pose proof (ofNat_le _ _ Hle) as Ht.
    pose proof (ofNat_le 0 (taggedFeatures d) ltac:(lia)) as Ht0.
    change (ofNat 0) with 0%Q in Ht0.
    split.
    + apply Qle_shift_div_l; [exact Hn|]. nra.
    + apply Qle_shift_div_r; [exact Hn|]. nra.
  - intros Hpos Hlt. rewrite (Hdef Hpos). apply clamp_above.
    pose proof (Hpos' Hpos) as Hn. pose proof (ofNat_lt _ _ Hlt) as Ht.
    apply Qle_shift_div_l; [exact Hn|]. nra.
  - unfold completenessOf.
    destruct (Nat.eqb (totalFeatures d) 0); [lra|apply clamp_bounds].
  - intros Hall Herr Hpos. split.
    + by apply completeness_all_tagged.
    + by apply accuracy_error_free.
Qed.

(** ** Properties of the quality-report loader *)

Lemma stripPrefix_append prefix s : stripPrefix prefix (prefix +:+ s) = Some s.
Proof.
  induction prefix as [|a prefix IH]; simpl; [by destruct s|].
  by rewrite Ascii.eqb_refl.
Qed.

(** The read operation is keyed by the id it is given. *)
Lemma getQualityReport_by_id reports reportId :
  getQualityReport reports reportId
  = match reports !! reportId with
    | Some report => inr report
    | None => inl NotFound
    end.
Proof.
  unfold getQualityReport, serveReport. by rewrite stripPrefix_append.
Qed.

(** C6.  The read operation returns the report of a known report id and
    [NotFound] for an unknown one, but the modal passes the id of the
    region to it: for a region whose file is linked to report "report-1",
    the API returns the report when asked for "report-1", and the modal,
    opened for the region "liechtenstein", ends in the error state. *)
Theorem loadQualityReport_passes_region_id :
  DataFile.quality_report_id <$> latestFile (RegionTree.data_files sampleNode)
    = Some (Some "report-1")
  /\ getQualityReport sampleReports "report-1" = inr sampleReport
  /\ getQualityReport sampleReports (Region.id (RegionTree.region sampleNode))
     = inl NotFound
  /\ loadQualityReport sampleReports (Region.id (RegionTree.region sampleNode))
       QualityModal.initial
     = QualityModal.mk None false (Some "Failed to load quality report").
Proof.
  split; [reflexivity|].
  unfold loadQualityReport. rewrite !getQualityReport_by_id.
  split; [reflexivity|]. split; reflexivity.
Qed.

(** ** Properties of the version comparison *)

















Lemma string_ltb_leb a b : String.ltb b a = negb (String.leb a b).
Proof.
  unfold String.ltb, String.leb. rewrite (String.compare_antisym a b).
  destruct (String.compare b a); reflexivity.
Qed.

(** C3. When [fromVersion] follows [toVersion], [compare] on two published
    versions fails with [InvalidOrder], it returns no comparison, and the
    modal, which passes the versions as selected, ends in its error state
    without a new comparison.  When [fromVersion] precedes or equals
    [toVersion], [compare] does not fail with [InvalidOrder], and on two
    published versions it returns a comparison from [fromVersion] to
    [toVersion]. *)
Theorem compare_order
    (rules : list (string * (Feature.t -> bool))) (now : string)
    (store : gmap (string * string) VersionData.t)
    (regionId fromVersion toVersion : string) (st : ComparisonModal.t) :
  (is_Some (store !! (regionId, fromVersion)) ->
   is_Some (store !! (regionId, toVersion)) ->
   String.ltb toVersion fromVersion = true ->
   compare rules now store regionId fromVersion toVersion = inl InvalidOrder
   /\ (forall cmp, compare rules now store regionId fromVersion toVersion <> inr cmp)
   /\ (ComparisonModal.fromVersion st = fromVersion ->
       ComparisonModal.toVersion st = toVersion ->
       fromVersion <> "" -> toVersion <> "" ->
       handleCompare (compare rules now store regionId) st
       = {| ComparisonModal.fromVersion := fromVersion;
            ComparisonModal.toVersion := toVersion;
            ComparisonModal.comparison := ComparisonModal.comparison st;
            ComparisonModal.loading := false;
            ComparisonModal.error := Some "Failed to load version comparison" |}))
  /\ (String.leb fromVersion toVersion = true ->
      compare rules now store regionId fromVersion toVersion <> inl InvalidOrder)
  /\ (is_Some (store !! (regionId, fromVersion)) ->
      is_Some (store !! (regionId, toVersion)) ->
      String.leb fromVersion toVersion = true ->
      exists cmp, compare rules now store regionId fromVersion toVersion = inr cmp
                  /\ VersionComparison.from_version cmp = fromVersion
                  /\ VersionComparison.to_version cmp = toVersion).
Proof.
  split; [|split].
  - intros [vf Hf] [vt Ht] Hrev.
    assert (Hcmp : compare rules now store regionId fromVersion toVersion
                   = inl InvalidOrder).
    { unfold compare. by rewrite Hf, Ht, Hrev. }
    split; [exact Hcmp|]. split; [congruence|].
    intros Hfrom Hto Hne1 Hne2. unfold handleCompare.
    rewrite Hfrom, Hto.
    apply String.eqb_neq in Hne1, Hne2. rewrite Hne1, Hne2. cbn [orb].
    rewrite Hcmp. reflexivity.
  - intros Hle. unfold compare.
    rewrite string_ltb_leb, Hle. cbn [negb].
    destruct (store !! (regionId, fromVersion)), (store !! (regionId, toVersion));
      discriminate.
  - intros [vf Hf] [vt Ht] Hle. unfold compare.
    rewrite Hf, Ht, string_ltb_leb, Hle. cbn [negb].
    eexists. split; [reflexivity|]. split; reflexivity.
Qed.

(** ** The theorems on sample data *)

(** The deep occurrence of "liechtenstein" comes first in pre-order and is
    the one returned; an id that occurs nowhere gives [None]. *)
Lemma findRegionById_first_match_witness :
  findRegionById sampleForest "liechtenstein" = Some sampleNode
  /\ Region.id (RegionTree.region sampleNode) = "liechtenstein"
  /\ findRegionById sampleForest "atlantis" = None.
Proof.
  destruct (findRegionById_first_match sampleForest "liechtenstein")
    as (Hfirst & _ & Hsome).
  destruct (findRegionById_first_match sampleForest "atlantis")
    as (Hnone & _ & _).
  split; [rewrite Hfirst; reflexivity|].
  split; [apply (Hsome sampleNode); rewrite Hfirst; reflexivity|].
  rewrite Hnone. reflexivity.
Defined.

Lemma toggleExpanded_involution_witness :
  "europe" ∈ toggleExpanded {[ "world" ]} "europe"
  /\ "world" ∈ toggleExpanded {[ "world" ]} "europe"
  /\ toggleExpanded (toggleExpanded {[ "world" ]} "europe") "europe" = {[ "world" ]}.
Proof.
  destruct (toggleExpanded_involution {[ "world" ]} "europe") as (Hid & Hother & Htwice).
  split; [apply Hid; rewrite elem_of_singleton; discriminate|].
  split; [apply Hother; [discriminate|by apply elem_of_singleton]|].
  exact Htwice.
Defined.

(** The world box has the larger extent and the smaller zoom. *)
Lemma calculateZoom_range_antitone_witness :
  (maxDiffOf sampleBox <=? maxDiffOf worldBox)%float = true
  /\ calculateZoom worldBox = 3%Z
  /\ calculateZoom sampleBox = 10%Z
  /\ (calculateZoom worldBox <= calculateZoom sampleBox)%Z.
Proof.
  split; [reflexivity|]. split; [reflexivity|]. split; [reflexivity|].
  apply (calculateZoom_range_antitone worldBox sampleBox). reflexivity.
Defined.

(** A box with a NaN coordinate gets the last zoom level. *)
Example calculateZoom_nan :
  calculateZoom (BoundingBox.mk nan 0 1 1) = 10%Z.
Proof. reflexivity. Qed.

Lemma job_type_one_of_four_witness :
  (exists t, jobTypeName t = "Process")
  /\ ~ (exists t, jobTypeName t = "Decode").
Proof.
  split.
  - apply (job_type_one_of_four
             (ProcessingJob.mk "job-0" "x" Process Pending 0 None "t" None None)
             "Process").
    set_unfold. tauto.
  - intros Hex.
    apply (job_type_one_of_four
             (ProcessingJob.mk "job-0" "x" Process Pending 0 None "t" None None)
             "Decode") in Hex.
    set_unfold. destruct Hex as [H|[H|[H|[H|[]]]]]; discriminate H.
Defined.

(** The scenario of region "X": no job before the request. *)
Lemma job_lifecycle_witness :
  exists job,
    requestProcessing "t0" "X" [] = (inr job, [job])
    /\ ProcessingJob.status job = Pending
    /\ statusAt (run [job] [OnJob 0 (Dequeue "t1")]) 0 = Some Running
    /\ statusAt (run [job] [OnJob 0 (Dequeue "t1"); OnJob 0 (StageDone "t1");
                            OnJob 0 (StageDone "t1"); OnJob 0 (StageDone "t1");
                            OnJob 0 (StageDone "t1")]) 0 = Some Completed.
Proof.
  destruct (job_lifecycle [] (Request "t0" "X") [] 0 "t0" "X" "t1" "timeout")
    as (_ & _ & _ & Hscenario).
  destruct (Hscenario eq_refl) as (job & Hreq & Hp & _ & Hrun & Hdone & _).
  exists job. split; [exact Hreq|]. split; [exact Hp|].
  split; [exact Hrun|exact Hdone].
Defined.

(** After two publishes for one region, a rejected re-publish and a
    publish for another region, the newer file is the only latest one; when
    the records are served oldest first, the search passes over the older
    file and still returns the newer one. *)
Lemma at_most_one_latest_witness :
  let store := publishAll ArtifactStore.empty sampleRequests in
  let data_files := listVersions store "liechtenstein" in
  let served := reverse data_files in
  DataFile.version <$> data_files = ["2024-01-01"; "2023-12-01"]
  /\ DataFile.is_latest <$> data_files = [true; false]
  /\ DataFile.version <$> served = ["2023-12-01"; "2024-01-01"]
  /\ DataFile.is_latest <$> served = [false; true]
  /\ DataFile.version <$> latestFile data_files = Some "2024-01-01"
  /\ DataFile.version <$> latestFile served = Some "2024-01-01"
  /\ length (List.filter DataFile.is_latest data_files) <= 1.
Proof.
  cbn zeta.
  destruct (at_most_one_latest sampleRequests "liechtenstein"
              (reverse (listVersions (publishAll ArtifactStore.empty sampleRequests)
                          "liechtenstein")))
    as (Hcount & _ & Hptr & _ & _ & Hserved).
  destruct (Hserved (reverse_Permutation _)) as [_ Hfind].
  destruct (latest (publishAll ArtifactStore.empty sampleRequests) "liechtenstein")
    as [err|file] eqn:Hlatest; [vm_compute in Hlatest; discriminate Hlatest|].
  rewrite (proj2 (Hptr file) eq_refl), (proj2 (Hfind file) eq_refl).
  vm_compute in Hlatest. injection Hlatest as <-.
  split; [reflexivity|]. split; [reflexivity|]. split; [reflexivity|].
  split; [reflexivity|]. split; [reflexivity|]. split; [reflexivity|exact Hcount].
Defined.


(** Comparing "2024-01-01" to "2023-12-01" is rejected; the other way
    round it is not. *)
Lemma compare_order_witness :
  compare sampleRules "2024-02-01" sampleVersions
    "liechtenstein" "2024-01-01" "2023-12-01" = inl InvalidOrder
  /\ compare sampleRules "2024-02-01" sampleVersions
       "liechtenstein" "2023-12-01" "2024-01-01" <> inl InvalidOrder.
Proof.
  split.
  - apply (compare_order sampleRules "2024-02-01" sampleVersions
             "liechtenstein" "2024-01-01" "2023-12-01"
             (ComparisonModal.mk "2024-01-01" "2023-12-01" None false None)).
    + eexists. reflexivity.
    + eexists. reflexivity.
    + reflexivity.
  - apply (compare_order sampleRules "2024-02-01" sampleVersions
             "liechtenstein" "2023-12-01" "2024-01-01"
             (ComparisonModal.mk "2023-12-01" "2024-01-01" None false None)).
    reflexivity.
Defined.

(** The sample dataset with every feature tagged and no error scores 100
    twice; the dataset with no feature has completeness 0. *)
Lemma analyze_completeness_witness :
  let report := analyze sampleConfig "report-2" "2024-01-01" allTaggedDataset
                  (sampleRegion "liechtenstein" None) in
  let none := analyze sampleConfig "report-1" "2024-01-01" emptyDataset
                (sampleRegion "liechtenstein" None) in
  (QualityReport.completeness_score report == 100)%Q
  /\ (QualityReport.accuracy_score report == 100)%Q
  /\ QualityReport.recommendations report = []
  /\ (QualityReport.completeness_score none == 0)%Q.
Proof.
  cbn zeta.
  destruct (analyze_completeness sampleConfig "report-2" "2024-01-01" allTaggedDataset
              (sampleRegion "liechtenstein" None)) as (_ & _ & _ & _ & _ & Hall).
  destruct (analyze_completeness sampleConfig "report-1" "2024-01-01" emptyDataset
              (sampleRegion "liechtenstein" None)) as (Hnone & _).
  destruct Hall as [Hc Ha].
  - repeat split; reflexivity.
  - repeat split; reflexivity.
  - discriminate.
  - split; [exact Hc|]. split; [exact Ha|]. split; [reflexivity|].
    apply Hnone. reflexivity.
Defined.

(** * Further properties of the front end *)

(** ** Region page: paths, breadcrumbs and navigation *)

Lemma chainIn_mono regions regions' ids node :
  (forall r, r ∈ regions -> r ∈ regions') ->
  chainIn regions ids node -> chainIn regions' ids node.
Proof.
  intros Hsub Hc. destruct Hc as [regions node Hin|regions parent ids node Hin Hc].
  - apply chain_here. by apply Hsub.
  - apply chain_down; [by apply Hsub|exact Hc].
Qed.

Lemma chainIn_nonempty regions ids node :
  chainIn regions ids node ->
  ids <> [] /\ last ids = Some (Region.id (RegionTree.region node)).
Proof.
  induction 1 as [regions node Hin|regions parent ids node Hin Hc [Hne Hlast]].
  - split; [discriminate|reflexivity].
  - split; [discriminate|].
    destruct ids as [|i ids]; [contradiction|exact Hlast].
Qed.

(** The search for the path and the search for the region go the same way:
    [findPathIn] succeeds exactly when [findIn] does, and then it appends
    to [path] the current path followed by the chain that leads to the
    region [findIn] returns. *)
Lemma findPathIn_findIn targetId node : forall currentPath path,
  match findIn targetId node with
  | Some found =>
      exists ids,
        RegionPage.findPathIn targetId currentPath node path
        = (true, path ++ currentPath ++ ids)
        /\ chainIn [node] ids found
  | None => RegionPage.findPathIn targetId currentPath node path = (false, path)
  end.
Proof.
  induction node as [r cs fs IH] using RegionTree_ind. intros currentPath path.
  rewrite findIn_unfold. unfold hasId. cbn [RegionPage.findPathIn RegionTree.region
    RegionTree.children].
  destruct (String.eqb (Region.id r) targetId) eqn:Hid.
  - exists [Region.id r]. split; [reflexivity|].
    apply (chain_here [RegionTree.mk r cs fs] (RegionTree.mk r cs fs)).
    apply list_elem_of_here.
  - set (newPath := currentPath ++ [Region.id r]).
    assert (Hloop :
      match findRegionById cs targetId with
      | Some found =>
          exists ids,
            (fix loop (currentRegions : list RegionTree.t) (path : list string)
               : bool * list string :=
               match currentRegions with
               | [] => (false, path)
               | child :: rest =>
                   let '(found, path) :=
                     RegionPage.findPathIn targetId newPath child path in
                   if found then (true, path) else loop rest path
               end) cs path = (true, path ++ newPath ++ ids)
            /\ chainIn cs ids found
      | None =>
          (fix loop (currentRegions : list RegionTree.t) (path : list string)
             : bool * list string :=
             match currentRegions with
             | [] => (false, path)
             | child :: rest =>
                 let '(found, path) :=
                   RegionPage.findPathIn targetId newPath child path in
                 if found then (true, path) else loop rest path
             end) cs path = (false, path)
      end).
    { clear Hid. induction IH as [|c cs Hc _ IHcs]; [reflexivity|].
      cbn [findRegionById]. specialize (Hc newPath path).
      destruct (findIn targetId c) as [found|].
      - destruct Hc as (ids & -> & Hchain). exists ids. split; [reflexivity|].
        eapply chainIn_mono; [|exact Hchain].
        intros x Hx. apply list_elem_of_singleton in Hx as ->. apply list_elem_of_here.
      - rewrite Hc. destruct (findRegionById cs targetId) as [found|].
        + destruct IHcs as (ids & -> & Hchain). exists ids. split; [reflexivity|].
          eapply chainIn_mono; [|exact Hchain].
          intros x Hx. by apply list_elem_of_further.
        + exact IHcs. }
    destruct (findRegionById cs targetId) as [found|].
    + destruct Hloop as (ids & -> & Hchain).
      exists (Region.id r :: ids). split.
      * unfold newPath. by rewrite <- !app_assoc.
      * apply (chain_down [RegionTree.mk r cs fs] (RegionTree.mk r cs fs));
          [apply list_elem_of_here|exact Hchain].
    + exact Hloop.
Qed.

Lemma findPath_findRegionById regions target : forall currentPath path,
  match findRegionById regions (Region.id (RegionTree.region target)) with
  | Some found =>
      exists ids,
        RegionPage.findPath regions target currentPath path
        = (true, path ++ currentPath ++ ids)
        /\ chainIn regions ids found
  | None => RegionPage.findPath regions target currentPath path = (false, path)
  end.
Proof.
  induction regions as [|r rest IH]; intros currentPath path; [reflexivity|].
  cbn [findRegionById RegionPage.findPath].
  pose proof (findPathIn_findIn (Region.id (RegionTree.region target)) r currentPath path)
    as Hr.
  destruct (findIn (Region.id (RegionTree.region target)) r) as [found|].
  - destruct Hr as (ids & -> & Hchain). exists ids. split; [reflexivity|].
    eapply chainIn_mono; [|exact Hchain].
    intros x Hx. apply list_elem_of_singleton in Hx as ->. apply list_elem_of_here.
  - rewrite Hr. specialize (IH currentPath path).
    destruct (findRegionById rest (Region.id (RegionTree.region target))) as [found|].
    + destruct IH as (ids & -> & Hchain). exists ids. split; [reflexivity|].
      eapply chainIn_mono; [|exact Hchain].
      intros x Hx. by apply list_elem_of_further.
    + exact IH.
Qed.

(** X1. [buildRegionPath] returns the empty path exactly when no region of
    the hierarchy has the id of the target.  Otherwise it returns the ids
    from a top-level region down to the region that [findRegionById] finds
    for that id, each id being that of a child of the region before it; the
    path is not empty and ends with the id of the target. *)
Theorem buildRegionPath_chain (regions : list RegionTree.t) (target : RegionTree.t) :
  let targetId := Region.id (RegionTree.region target) in
  (RegionPage.buildRegionPath regions target = [] <->
   findRegionById regions targetId = None)
  /\ (forall found, findRegionById regions targetId = Some found ->
        chainIn regions (RegionPage.buildRegionPath regions target) found
        /\ last (RegionPage.buildRegionPath regions target) = Some targetId).
Proof.
  cbn zeta. unfold RegionPage.buildRegionPath.
  pose proof (findPath_findRegionById regions target [] []) as H.
  destruct (findRegionById regions (Region.id (RegionTree.region target)))
    as [found|] eqn:Hfind.
  - destruct H as (ids & -> & Hchain). cbn [snd app].
    destruct (chainIn_nonempty _ _ _ Hchain) as [Hne Hlast].
    split; [split; [contradiction|discriminate]|].
    intros found' [= <-]. split; [exact Hchain|].
    rewrite Hlast. f_equal.
    rewrite findRegionById_preorder in Hfind.
    apply List.find_some in Hfind as [_ Hid]. by apply hasId_true in Hid.
  - rewrite H. cbn [snd]. split; [split; reflexivity|discriminate].
Qed.

Lemma findRegionById_id regions id found :
  findRegionById regions id = Some found ->
  Region.id (RegionTree.region found) = id /\ found ∈ preorderAll regions.
Proof.
  rewrite findRegionById_preorder. intros H.
  apply List.find_some in H as [Hin Hid].
  split; [by apply hasId_true|by apply list_elem_of_In].
Qed.

Lemma findRegionById_known regions node :
  node ∈ preorderAll regions ->
  known regions (Region.id (RegionTree.region node)) = true.
Proof.
  intros Hin. unfold known. rewrite findRegionById_preorder.
  destruct (List.find _ _) eqn:Hfind; [reflexivity|].
  apply list_elem_of_In in Hin.
  pose proof (List.find_none _ _ Hfind node Hin) as Hno.
  assert (hasId (Region.id (RegionTree.region node)) node = true)
    by (by apply hasId_true).
  congruence.
Qed.

Lemma preorder_self node : node ∈ preorder node.
Proof. destruct node. simpl. apply list_elem_of_here. Qed.

Lemma preorderAll_top regions r : r ∈ regions -> r ∈ preorderAll regions.
Proof.
  intros Hin. apply list_elem_of_In, List.in_flat_map.
  exists r. split; [by apply list_elem_of_In|apply list_elem_of_In, preorder_self].
Qed.

Lemma preorderAll_below regions r node :
  r ∈ regions -> node ∈ preorderAll (RegionTree.children r) ->
  node ∈ preorderAll regions.
Proof.
  intros Hin Hnode. apply list_elem_of_In, List.in_flat_map.
  exists r. split; [by apply list_elem_of_In|].
  destruct r as [reg cs fs]. simpl. right. by apply list_elem_of_In.
Qed.

Lemma chainIn_known regions ids node :
  chainIn regions ids node -> Forall (fun id => known regions id = true) ids.
Proof.
  induction 1 as [regions node Hin|regions parent ids node Hin Hc IH].
  - constructor; [|constructor].
    by apply findRegionById_known, preorderAll_top.
  - constructor; [by apply findRegionById_known, preorderAll_top|].
    apply Forall_forall. intros id Hid.
    rewrite Forall_forall in IH. specialize (IH id Hid).
    unfold known in IH |- *.
    destruct (findRegionById (RegionTree.children parent) id) as [n|] eqn:Hn;
      [|discriminate].
    apply findRegionById_id in Hn as [<- Hn].
    by apply findRegionById_known, (preorderAll_below _ parent).
Qed.

Lemma breadcrumbLoop_ids regions urlPath : forall rest i breadcrumb,
  map BreadcrumbItem.id (RegionPage.breadcrumbLoop regions urlPath rest i breadcrumb)
  = map BreadcrumbItem.id breadcrumb ++ List.filter (known regions) rest.
Proof.
  induction rest as [|regionId rest IH]; intros i breadcrumb; simpl.
  - by rewrite app_nil_r.
  - rewrite IH. unfold known at 2.
    destruct (findRegionById regions regionId) as [region|] eqn:Hfind; [|reflexivity].
    apply findRegionById_id in Hfind as [Hid _].
    rewrite map_app. simpl. rewrite Hid, <- app_assoc. reflexivity.
Qed.

Lemma breadcrumbLoop_paths regions urlPath : forall rest i breadcrumb,
  Forall (fun id => known regions id = true) rest ->
  map BreadcrumbItem.path (RegionPage.breadcrumbLoop regions urlPath rest i breadcrumb)
  = map BreadcrumbItem.path breadcrumb
    ++ map (fun k => "/region/" +:+ joinPath (take (S k) urlPath)) (seq i (length rest)).
Proof.
  induction rest as [|regionId rest IH]; intros i breadcrumb Hall; simpl.
  - by rewrite app_nil_r.
  - apply Forall_cons in Hall as [Hk Hall]. rewrite (IH _ _ Hall).
    unfold known in Hk.
    destruct (findRegionById regions regionId) as [region|]; [|discriminate].
    rewrite map_app. simpl. rewrite <- app_assoc. simpl.
    by rewrite Nat.add_1_r.
Qed.

Lemma filter_all_true {A} (p : A -> bool) (l : list A) :
  Forall (fun x => p x = true) l -> List.filter p l = l.
Proof.
  induction 1 as [|x l Hx _ IH]; simpl; [reflexivity|]. by rewrite Hx, IH.
Qed.

(** X2. The breadcrumb built from a URL path has one item for each segment
    that names a region of the hierarchy, in the order of the path, with
    that segment as its id; the segments that name no region are skipped.
    It is never longer than the path. *)
Theorem buildBreadcrumbFromPath_ids (regions : list RegionTree.t) (urlPath : list string) :
  map BreadcrumbItem.id (RegionPage.buildBreadcrumbFromPath regions urlPath)
  = List.filter (known regions) urlPath
  /\ length (RegionPage.buildBreadcrumbFromPath regions urlPath) <= length urlPath.
Proof.
  unfold RegionPage.buildBreadcrumbFromPath.
  pose proof (breadcrumbLoop_ids regions urlPath urlPath 0 []) as Hids.
  simpl in Hids. split; [exact Hids|].
  rewrite <- (length_map BreadcrumbItem.id), Hids.
  apply List.filter_length_le.
Qed.

Lemma navigate_built (regions : list RegionTree.t)
    (target found : RegionTree.t) (st : Nav.t) :
  findRegionById regions (Region.id (RegionTree.region target)) = Some found ->
  let urlPath := RegionPage.buildRegionPath regions target in
  let st' := RegionPage.navigateToPath regions urlPath st in
  Nav.currentRegion st' = Some found
  /\ map BreadcrumbItem.id (Nav.currentPath st') = urlPath
  /\ map BreadcrumbItem.path (Nav.currentPath st') = prefixUrls urlPath
  /\ Nav.pushed st' = Nav.pushed st.
Proof.
  intros Hfind. cbn zeta.
  pose proof (findPath_findRegionById regions target [] []) as H.
  rewrite Hfind in H. destruct H as (ids & Heq & Hchain).
  unfold RegionPage.buildRegionPath. rewrite Heq. cbn [snd app].
  destruct (chainIn_nonempty _ _ _ Hchain) as [_ Hlast].
  pose proof (chainIn_known _ _ _ Hchain) as Hknown.
  unfold RegionPage.navigateToPath. rewrite Hlast.
  apply findRegionById_id in Hfind as Hid. destruct Hid as [Hid _].
  rewrite Hid, Hfind. cbn [Nav.currentRegion Nav.currentPath Nav.pushed].
  split; [reflexivity|]. split; [|split; [|reflexivity]].
  - unfold RegionPage.buildBreadcrumbFromPath. rewrite breadcrumbLoop_ids. simpl.
    by apply filter_all_true.
  - unfold RegionPage.buildBreadcrumbFromPath.
    rewrite (breadcrumbLoop_paths _ _ _ _ _ Hknown). reflexivity.
Qed.

Lemma prefixUrls_lookup (urlPath : list string) (k : nat) :
  k < length urlPath ->
  prefixUrls urlPath !! k = Some ("/region/" +:+ joinPath (take (S k) urlPath)).
Proof.
  intros Hk. unfold prefixUrls.
  change (map ?f ?l) with (f <$> l).
  rewrite list_lookup_fmap, lookup_seq_lt by exact Hk. reflexivity.
Qed.

(** X3. Selecting a region of the hierarchy and navigating to the path
    built for it shows the region that [findRegionById] finds for its id,
    with a breadcrumb that has one item for each id of the path, the item
    of a position linking to the URL of the path up to that position, and
    without a redirect. *)
Theorem navigateToPath_buildRegionPath (regions : list RegionTree.t)
    (target found : RegionTree.t) (st : Nav.t) :
  findRegionById regions (Region.id (RegionTree.region target)) = Some found ->
  let urlPath := RegionPage.buildRegionPath regions target in
  let st' := RegionPage.navigateToPath regions urlPath st in
  Nav.pushed (RegionPage.handleRegionSelect regions target st)
    = Some ("/region/" +:+ joinPath urlPath)
  /\ Nav.currentRegion st' = Some found
  /\ map BreadcrumbItem.id (Nav.currentPath st') = urlPath
  /\ map BreadcrumbItem.path (Nav.currentPath st') = prefixUrls urlPath
  /\ Nav.pushed st' = Nav.pushed st.
Proof.
  intros Hfind. split; [reflexivity|]. by apply navigate_built.
Qed.

(** X4. After navigating to the path built for a region of the hierarchy,
    going back leads to the URL of the path without its last id, and to
    the home page when the path has a single id. *)
Theorem handleBackNavigation_parent (regions : list RegionTree.t)
    (target found : RegionTree.t) (st : Nav.t) :
  findRegionById regions (Region.id (RegionTree.region target)) = Some found ->
  let urlPath := RegionPage.buildRegionPath regions target in
  let st' := RegionPage.navigateToPath regions urlPath st in
  Nav.pushed (RegionPage.handleBackNavigation st')
  = Some (if Nat.ltb 1 (length urlPath)
          then "/region/" +:+ joinPath (take (length urlPath - 1) urlPath)
          else "/").
Proof.
  intros Hfind. cbn zeta.
  destruct (navigate_built regions target found st Hfind) as (_ & Hids & Hpaths & _).
  cbn zeta in Hids, Hpaths.
  set (urlPath := RegionPage.buildRegionPath regions target) in *.
  set (st' := RegionPage.navigateToPath regions urlPath st) in *.
  unfold RegionPage.handleBackNavigation. cbn [Nav.pushed].
  assert (Hlen : length (Nav.currentPath st') = length urlPath).
  { by rewrite <- Hids, length_map. }
  rewrite Hlen. f_equal.
  destruct (Nat.ltb_spec 1 (length urlPath)) as [Hgt|Hle]; [|reflexivity].
  assert (Hk : length urlPath - 2 < length urlPath) by lia.
  pose proof (prefixUrls_lookup urlPath _ Hk) as Hurl.
  rewrite <- Hpaths in Hurl.
  change (map ?f ?l) with (f <$> l) in Hurl.
  rewrite list_lookup_fmap in Hurl.
  destruct (Nav.currentPath st' !! (length urlPath - 2)) as [parent|];
    [|discriminate].
  simpl in Hurl. injection Hurl as ->.
  by replace (S (length urlPath - 2)) with (length urlPath - 1) by lia.
Qed.

(** ** Region page: paths that follow [parent_id] *)

Lemma buildPathPush_prefix fuel regions : forall region path,
  RegionPageByParent.buildPathPush fuel regions region path
  = (fun ids => path ++ ids) <$> RegionPageByParent.buildPathPush fuel regions region [].
Proof.
  induction fuel as [|fuel IH]; intros region path; [reflexivity|].
  cbn [RegionPageByParent.buildPathPush].
  destruct (RegionPageByParent.parentOf regions region) as [parent|].
  - rewrite (IH parent path).
    destruct (RegionPageByParent.buildPathPush fuel regions parent []) as [ids|];
      simpl; [|reflexivity].
    by rewrite app_assoc.
  - reflexivity.
Qed.

Lemma buildPath_suffix fuel regions : forall region path,
  RegionPageByParent.buildPath fuel regions region path
  = (fun ids => ids ++ path) <$> RegionPageByParent.buildPathPush fuel regions region [].
Proof.
  induction fuel as [|fuel IH]; intros region path; [reflexivity|].
  cbn [RegionPageByParent.buildPath RegionPageByParent.buildPathPush].
  destruct (RegionPageByParent.parentOf regions region) as [parent|].
  - rewrite (IH parent).
    destruct (RegionPageByParent.buildPathPush fuel regions parent []) as [ids|];
      simpl; [|reflexivity].
    by rewrite <- app_assoc.
  - reflexivity.
Qed.

Lemma buildPathPush_ancestor fuel regions : forall region ids,
  RegionPageByParent.buildPathPush fuel regions region [] = Some ids ->
  exists k top,
    k < fuel /\ length ids = S k
    /\ RegionPageByParent.ancestor regions k region = Some top
    /\ RegionPageByParent.parentOf regions top = None
    /\ head ids = Some (Region.id (RegionTree.region top))
    /\ last ids = Some (Region.id (RegionTree.region region)).
Proof.
  induction fuel as [|fuel IH]; intros region ids; [discriminate|].
  cbn [RegionPageByParent.buildPathPush].
  destruct (RegionPageByParent.parentOf regions region) as [parent|] eqn:Hparent.
  - destruct (RegionPageByParent.buildPathPush fuel regions parent []) as [up|] eqn:Hup;
      [|discriminate].
    intros [= <-].
    destruct (IH parent up Hup) as (k & top & Hk & Hlen & Hanc & Htop & Hhead & Hlast).
    exists (S k), top. split; [lia|]. split; [rewrite length_app; simpl; lia|].
    split; [simpl; by rewrite Hparent|]. split; [exact Htop|].
    split; [|by rewrite last_snoc].
    destruct up as [|u up]; [discriminate Hhead|exact Hhead].
  - intros [= <-]. exists 0, region.
    split; [lia|]. repeat split; assumption.
Qed.

Lemma ancestor_ends_buildPathPush regions k : forall region,
  RegionPageByParent.ancestor regions k region = None ->
  forall fuel, k <= fuel ->
  is_Some (RegionPageByParent.buildPathPush fuel regions region []).
Proof.
  induction k as [|k IH]; intros region Hnone fuel Hle; [discriminate|].
  destruct fuel as [|fuel]; [lia|].
  cbn [RegionPageByParent.buildPathPush]. simpl in Hnone.
  destruct (RegionPageByParent.parentOf regions region) as [parent|].
  - destruct (IH parent Hnone fuel ltac:(lia)) as [ids ->]. eauto.
  - eauto.
Qed.

Lemma buildPathPush_mono regions fuel : forall region fuel' ids,
  RegionPageByParent.buildPathPush fuel regions region [] = Some ids ->
  fuel <= fuel' ->
  RegionPageByParent.buildPathPush fuel' regions region [] = Some ids.
Proof.
  induction fuel as [|fuel IH]; intros region fuel' ids; [discriminate|].
  intros H Hle. destruct fuel' as [|fuel']; [lia|].
  cbn [RegionPageByParent.buildPathPush] in *.
  destruct (RegionPageByParent.parentOf regions region) as [parent|]; [|exact H].
  destruct (RegionPageByParent.buildPathPush fuel regions parent []) as [up|] eqn:Hup;
    [|discriminate].
  by rewrite (IH parent fuel' up Hup ltac:(lia)).
Qed.

(** X5. [buildRegionPath] of the later region page returns exactly when the
    chain of parents, followed through [parent_id] and [findRegionById],
    ends; more nested calls than needed do not change the result.  A region
    that is its own parent makes it recurse without end. *)
Theorem buildRegionPath_by_parent_returns (regions : list RegionTree.t)
    (region : RegionTree.t) :
  ((exists fuel ids, RegionPageByParent.buildRegionPath fuel regions region = Some ids)
   <-> (exists k, RegionPageByParent.ancestor regions k region = None))
  /\ (forall fuel fuel' ids,
        RegionPageByParent.buildRegionPath fuel regions region = Some ids ->
        fuel <= fuel' ->
        RegionPageByParent.buildRegionPath fuel' regions region = Some ids)
  /\ (RegionPageByParent.parentOf regions region = Some region ->
      forall fuel, RegionPageByParent.buildRegionPath fuel regions region = None).
Proof.
  unfold RegionPageByParent.buildRegionPath. split; [split|split].
  - intros (fuel & ids & H).
    destruct (buildPathPush_ancestor _ _ _ _ H) as (k & top & _ & _ & Hanc & Htop & _).
    exists (S k). clear H. revert region Hanc.
    induction k as [|k IH]; intros region Hanc; simpl in *.
    + injection Hanc as ->. by rewrite Htop.
    + destruct (RegionPageByParent.parentOf regions region) as [parent|];
        [by apply IH|discriminate].
  - intros (k & Hk).
    destruct (ancestor_ends_buildPathPush regions k region Hk k (le_n k)) as [ids H].
    eauto.
  - intros fuel fuel' ids. apply buildPathPush_mono.
  - intros Hself fuel.
    induction fuel as [|fuel IH]; [reflexivity|].
    cbn [RegionPageByParent.buildPathPush]. by rewrite Hself, IH.
Qed.

(** X6. When the two path builders of the later region page return, they
    return the same path: the URL that selecting a region leads to and the
    hierarchy of the breadcrumb list the same ids.  The path has at most as
    many ids as nested calls, starts with the id of a region for which no
    parent is found, and ends with the id of the region itself. *)
Theorem buildPath_both_agree (fuel : nat) (regions : list RegionTree.t)
    (region : RegionTree.t) :
  RegionPageByParent.buildPath fuel regions region []
  = RegionPageByParent.buildRegionPath fuel regions region
  /\ (forall ids, RegionPageByParent.buildRegionPath fuel regions region = Some ids ->
        0 < length ids <= fuel
        /\ last ids = Some (Region.id (RegionTree.region region))
        /\ exists top, head ids = Some (Region.id (RegionTree.region top))
                       /\ RegionPageByParent.parentOf regions top = None
                       /\ RegionPageByParent.ancestor regions (length ids - 1) region
                          = Some top).
Proof.
  unfold RegionPageByParent.buildRegionPath. split.
  - rewrite buildPath_suffix.
    destruct (RegionPageByParent.buildPathPush fuel regions region []) as [ids|];
      simpl; [|reflexivity].
    by rewrite app_nil_r.
  - intros ids H.
    destruct (buildPathPush_ancestor _ _ _ _ H)
      as (k & top & Hk & Hlen & Hanc & Htop & Hhead & Hlast).
    split; [lia|]. split; [exact Hlast|].
    exists top. split; [exact Hhead|]. split; [exact Htop|].
    by replace (length ids - 1) with k by lia.
Qed.

(** ** File sizes *)

Lemma roundTenths_bounds (num den : N) :
  (0 < den)%N ->
  (2 * den * roundTenths num den <= 20 * num + den
   /\ 20 * num + den < 2 * den * roundTenths num den + 2 * den)%N.
Proof.
  intros Hden. unfold roundTenths.
  assert (H2 : (2 * den <> 0)%N) by lia.
  pose proof (N.Div0.mul_div_le (20 * num + den) (2 * den)).
  pose proof (N.mul_succ_div_gt (20 * num + den) (2 * den) H2).
  lia.
Qed.

Lemma roundTenths_mono (num num' den : N) :
  (num <= num')%N -> (roundTenths num den <= roundTenths num' den)%N.
Proof.
  intros Hle. unfold roundTenths.
  apply N.Div0.div_le_mono. lia.
Qed.

(** X7. [formatFileSize] shows kilobytes below 1048576 bytes and megabytes
    from there on.  The number shown, in tenths of the unit, is within half
    a tenth of the size, and within one unit a larger size never shows a
    smaller number. *)
Theorem formatFileSize_rounding (bytes bytes' : N) :
  let unit := if (bytes <? 1048576)%N then 1024%N else 1048576%N in
  let suffix := if (bytes <? 1048576)%N then " KB" else " MB" in
  let n := roundTenths bytes unit in
  formatFileSize bytes = showTenths n +:+ suffix
  /\ (2 * unit * n <= 20 * bytes + unit /\ 20 * bytes < 2 * unit * n + unit)%N
  /\ ((bytes <= bytes')%N ->
      (bytes <? 1048576)%N = (bytes' <? 1048576)%N ->
      (n <= roundTenths bytes' unit)%N
      /\ formatFileSize bytes' = showTenths (roundTenths bytes' unit) +:+ suffix).
Proof.
  cbn zeta. unfold formatFileSize.
  destruct (bytes <? 1048576)%N eqn:Hkb.
  - split; [reflexivity|].
    split; [pose proof (roundTenths_bounds bytes 1024 ltac:(lia)); lia|].
    intros Hle <-. split; [by apply roundTenths_mono|reflexivity].
  - split; [reflexivity|].
    split; [pose proof (roundTenths_bounds bytes 1048576 ltac:(lia)); lia|].
    intros Hle <-. split; [by apply roundTenths_mono|reflexivity].
Qed.

(** X8. The last 51 sizes below one megabyte are shown as "1024.0 KB", not
    as "1.0 MB": the unit is chosen before the number is rounded. *)
Theorem formatFileSize_1024_KB (bytes : N) :
  (1048525 <= bytes < 1048576)%N -> formatFileSize bytes = "1024.0 KB".
Proof.
  intros [Hlo Hhi]. unfold formatFileSize.
  assert ((bytes <? 1048576)%N = true) as -> by (by apply N.ltb_lt).
  assert (roundTenths bytes 1024 = 10240%N) as ->.
  { unfold roundTenths. symmetry.
    apply (N.div_unique _ _ _ (20 * bytes + 1024 - 2048 * 10240)%N); lia. }
  vm_compute. reflexivity.
Qed.

(** ** Score indicators *)

Lemma SFleb_trans (a b c : spec_float) :
  SFleb a b = true -> SFleb b c = true -> SFleb a c = true.
Proof.
  unfold SFleb, SFcompare.
  destruct a as [[]|[]| |[] ma ea], b as [[]|[]| |[] mb eb],
    c as [[]|[]| |[] mc ec]; simpl; try congruence;
    change (Pos.compare_cont Eq ?p ?q) with (Pos.compare p q);
    repeat match goal with
      | |- context [Z.compare ?x ?y] => destruct (Z.compare_spec x y)
      | |- context [Pos.compare ?x ?y] => destruct (Pos.compare_spec x y)
      end; simpl; subst; try congruence; try lia.
Qed.

Lemma float_leb_trans (a b c : float) :
  (a <=? b)%float = true -> (b <=? c)%float = true -> (a <=? c)%float = true.
Proof. rewrite !leb_spec. apply SFleb_trans. Qed.

(** X9. The colour and the icon of a score always belong to the same band
    (green with the check mark, yellow with the warning, red with the
    cross).  The band is green exactly from 90, yellow exactly from 70 to
    below 90, and red exactly when the score is not at least 70, which
    includes NaN; a score that is greater than or equal to another one never
    gets a lower band. *)
Theorem score_bands (score other : float) :
  (getScoreColor score, getScoreIcon score)
    ∈ [ ("text-green-600", (CheckCircle, "h-5 w-5 text-green-600"));
        ("text-yellow-600", (AlertTriangle, "h-5 w-5 text-yellow-600"));
        ("text-red-600", (XCircle, "h-5 w-5 text-red-600")) ]
  /\ getScoreColor nan = "text-red-600"
  /\ ((score <=? other)%float = true ->
      (getScoreColor score = "text-green-600" -> getScoreColor other = "text-green-600")
      /\ (getScoreColor other = "text-red-600" -> getScoreColor score = "text-red-600"))
  /\ (getScoreColor score = "text-green-600" <-> (90 <=? score)%float = true)
  /\ (getScoreColor score = "text-yellow-600"
      <-> (90 <=? score)%float = false /\ (70 <=? score)%float = true)
  /\ (getScoreColor score = "text-red-600" <-> (70 <=? score)%float = false)
  /\ (fst (getScoreIcon score) = CheckCircle <-> (90 <=? score)%float = true)
  /\ (fst (getScoreIcon score) = AlertTriangle
      <-> (90 <=? score)%float = false /\ (70 <=? score)%float = true)
  /\ (fst (getScoreIcon score) = XCircle <-> (70 <=? score)%float = false).
Proof.
  assert (H7090 : (90 <=? score)%float = true -> (70 <=? score)%float = true).
  { apply float_leb_trans. reflexivity. }
  unfold getScoreColor, getScoreIcon.
  split; [|split; [reflexivity|split]].
  - destruct (90 <=? score)%float; [set_unfold; tauto|].
    destruct (70 <=? score)%float; set_unfold; tauto.
  - intros Hle.
    pose proof (fun c H => float_leb_trans c score other H Hle) as Hup.
    split.
    + destruct (90 <=? score)%float eqn:H90.
      * by rewrite (Hup _ H90).
      * destruct (70 <=? score)%float; discriminate.
    + destruct (90 <=? score)%float eqn:H90; [by rewrite (Hup _ H90)|].
      destruct (70 <=? score)%float eqn:H70; [|reflexivity].
      rewrite (Hup _ H70). destruct (90 <=? other)%float; discriminate.
  - destruct (90 <=? score)%float eqn:H90.
    + rewrite (H7090 eq_refl). cbn [fst].
      repeat split; try discriminate; try reflexivity; intros [? ?]; discriminate.
    + clear H7090. destruct (70 <=? score)%float; cbn [fst];
        repeat split; try discriminate; try reflexivity; intros [? ?]; discriminate.
Qed.

(** ** Rows of the compact region list *)

Lemma renderRegion_sublist expandedRegions node :
  sublist (renderRegion expandedRegions node)
          (map (fun n => Region.id (RegionTree.region n)) (preorder node)).
Proof.
  induction node as [r cs fs IH] using RegionTree_ind.
  cbn [renderRegion preorder map RegionTree.region RegionTree.children].
  apply sublist_skip.
  destruct (_ && _)%bool; [|apply sublist_nil_l].
  induction IH as [|c cs Hc _ IHcs]; simpl; [constructor|].
  rewrite map_app. by apply sublist_app.
Qed.

Lemma renderRegion_all (expandedRegions : gset string) node :
  (forall n, n ∈ preorder node -> RegionTree.children n <> [] ->
             Region.id (RegionTree.region n) ∈ expandedRegions) ->
  renderRegion expandedRegions node
  = map (fun n => Region.id (RegionTree.region n)) (preorder node).
Proof.
  induction node as [r cs fs IH] using RegionTree_ind. intros Hexp.
  cbn [renderRegion preorder map RegionTree.region RegionTree.children].
  f_equal.
  assert (Hall : Forall (fun c => renderRegion expandedRegions c
                   = map (fun n => Region.id (RegionTree.region n)) (preorder c)) cs).
  { apply Forall_forall. intros c Hc. rewrite Forall_forall in IH.
    apply (IH c Hc). intros n Hn. apply Hexp. simpl.
    apply list_elem_of_further, list_elem_of_In, List.in_flat_map.
    exists c. split; by apply list_elem_of_In. }
  destruct cs as [|c cs'] eqn:Hcs; [by rewrite andb_false_r|].
  rewrite <- Hcs in *.
  assert (bool_decide (Region.id r ∈ expandedRegions) = true) as ->.
  { apply bool_decide_eq_true. apply (Hexp (RegionTree.mk r cs fs)).
    - apply preorder_self.
    - simpl. by rewrite Hcs. }
  assert (Nat.ltb 0 (length cs) = true) as -> by (by rewrite Hcs).
  cbn [andb]. clear -Hall.
  induction Hall as [|c0 cs0 Hc0 _ IHcs]; simpl; [reflexivity|].
  by rewrite map_app, Hc0, IHcs.
Qed.

(** X10. The compact region list always renders the row of every top-level
    region, and the rows it renders are a sub-list of the depth-first
    pre-order of the hierarchy.  With no region expanded it renders the
    top-level rows only; with every region that has children expanded it
    renders the row of every region. *)
Theorem renderRegions_rows (expandedRegions : gset string) (regions : list RegionTree.t) :
  let idOf := fun n => Region.id (RegionTree.region n) in
  renderRegions ∅ regions = map idOf regions
  /\ sublist (map idOf regions) (renderRegions expandedRegions regions)
  /\ sublist (renderRegions expandedRegions regions) (map idOf (preorderAll regions))
  /\ ((forall n, n ∈ preorderAll regions -> RegionTree.children n <> [] ->
                 idOf n ∈ expandedRegions) ->
      renderRegions expandedRegions regions = map idOf (preorderAll regions)).
Proof.
  cbn zeta. unfold renderRegions, preorderAll.
  split; [|split; [|split]].
  - induction regions as [|r rest IH]; [reflexivity|].
    cbn [flat_map map]. rewrite IH. destruct r as [reg cs fs].
    cbn [renderRegion RegionTree.region].
    rewrite bool_decide_eq_false_2 by apply not_elem_of_empty. reflexivity.
  - induction regions as [|r rest IH]; [constructor|].
    cbn [flat_map map]. destruct r as [reg cs fs].
    cbn [renderRegion RegionTree.region]. apply sublist_skip.
    by apply sublist_inserts_l.
  - induction regions as [|r rest IH]; [constructor|].
    cbn [flat_map]. rewrite map_app.
    apply sublist_app; [apply renderRegion_sublist|exact IH].
  - intros Hexp.
    induction regions as [|r rest IH]; [reflexivity|].
    cbn [flat_map]. rewrite map_app. f_equal.
    + apply renderRegion_all. intros n Hn. apply Hexp.
      cbn [flat_map]. apply elem_of_app. by left.
    + apply IH. intros n Hn. apply Hexp.
      cbn [flat_map]. apply elem_of_app. by right.
Qed.

(** ** Home page *)

(** X11. After the regions are loaded, the home page shows nothing selected
    and the crumb "All Regions" exactly when no region was loaded.
    Otherwise it selects one of the top-level regions and makes it the only
    crumb: a region with id "world" if a top-level region has that id, and
    if none has, a region with children when there is one. *)
Theorem loadRegions_selects (data : list RegionTree.t) :
  let st := HomePage.loadRegions data in
  HomePage.regions st = data
  /\ (data = [] ->
      HomePage.selectedRegion st = None
      /\ HomePage.currentPath st = [Crumb.mk "all" "All Regions"])
  /\ (data <> [] ->
      exists w, HomePage.selectedRegion st = Some w /\ w ∈ data
                /\ HomePage.currentPath st = [HomePage.crumbOf w]
                /\ ((exists r, r ∈ data /\ Region.id (RegionTree.region r) = "world") ->
                    Region.id (RegionTree.region w) = "world")
                /\ ((forall r, r ∈ data -> Region.id (RegionTree.region r) <> "world") ->
                    (exists r, r ∈ data /\ RegionTree.children r <> []) ->
                    RegionTree.children w <> [])).
Proof.
  cbn zeta. unfold HomePage.loadRegions.
  set (isWorld := fun r => String.eqb (Region.id (RegionTree.region r)) "world").
  set (hasKids := fun r => Nat.ltb 0 (length (RegionTree.children r))).
  assert (Hnever : List.find (fun r => HomePage.adminLevelIsNumber r 0) data = None).
  { induction data as [|r rest IH]; [reflexivity|exact IH]. }
  rewrite Hnever.
  destruct (List.find isWorld data) as [w|] eqn:Hworld.
  - split; [reflexivity|]. apply List.find_some in Hworld as [Hin Hid].
    split; [intros ->; destruct Hin|]. intros _. exists w.
    split; [reflexivity|]. split; [by apply list_elem_of_In|].
    split; [reflexivity|]. split.
    + intros _. by apply String.eqb_eq in Hid.
    + intros Hno. exfalso. apply (Hno w); [by apply list_elem_of_In|].
      by apply String.eqb_eq in Hid.
  - destruct (List.find hasKids data) as [w|] eqn:Hkids.
    + split; [reflexivity|]. apply List.find_some in Hkids as [Hin Hk].
      split; [intros ->; destruct Hin|]. intros _. exists w.
      split; [reflexivity|]. split; [by apply list_elem_of_In|].
      split; [reflexivity|]. split.
      * intros (r & Hr & Hid). exfalso.
        apply list_elem_of_In in Hr.
        pose proof (List.find_none _ _ Hworld r Hr) as Hf.
        unfold isWorld in Hf. apply String.eqb_neq in Hf. contradiction.
      * intros _ _. unfold hasKids in Hk.
        destruct (RegionTree.children w); [discriminate|discriminate].
    + destruct data as [|r rest].
      * split; [reflexivity|]. split; [intros _; split; reflexivity|].
        intros Hne. contradiction.
      * cbn [length Nat.ltb Nat.leb head]. split; [reflexivity|].
        split; [discriminate|]. intros _. exists r.
        split; [reflexivity|]. split; [apply list_elem_of_here|].
        split; [reflexivity|]. split.
        -- intros (r' & Hr' & Hid). exfalso.
           apply list_elem_of_In in Hr'.
           pose proof (List.find_none _ _ Hworld r' Hr') as Hf.
           unfold isWorld in Hf. apply String.eqb_neq in Hf. contradiction.
        -- intros _ (r' & Hr' & Hk). exfalso.
           apply list_elem_of_In in Hr'.
           pose proof (List.find_none _ _ Hkids r' Hr') as Hf.
           unfold hasKids in Hf. destruct (RegionTree.children r'); [contradiction|].
           discriminate.
Qed.

(** X12. Selecting a region on the home page always makes it the selected
    region.  For the levels World, Continent and Country the breadcrumb
    ends with the region and its children are the regions listed.  For any
    other level the breadcrumb is left as it was and no region is listed,
    whatever children the region has. *)
Theorem handleRegionSelect_levels (region : RegionTree.t) (st : HomePage.t) :
  let st' := HomePage.handleRegionSelect region st in
  let level := Region.admin_level (RegionTree.region region) in
  HomePage.selectedRegion st' = Some region
  /\ HomePage.regions st' = HomePage.regions st
  /\ (level ∈ ["World"; "Continent"; "Country"] ->
      last (HomePage.currentPath st') = Some (HomePage.crumbOf region)
      /\ HomePage.getCurrentRegions st' = RegionTree.children region)
  /\ (level ∉ ["World"; "Continent"; "Country"] ->
      HomePage.currentPath st' = HomePage.currentPath st
      /\ HomePage.getCurrentRegions st' = []).
Proof.
  cbn zeta. unfold HomePage.handleRegionSelect, HomePage.getCurrentRegions.
  cbn [HomePage.selectedRegion HomePage.regions HomePage.currentPath].
  split; [reflexivity|]. split; [reflexivity|].
  destruct (String.eqb_spec (Region.admin_level (RegionTree.region region)) "World")
    as [Hw|Hw].
  { split; [intros _; split; reflexivity|]. intros Hout. exfalso. apply Hout.
    rewrite Hw. set_unfold. tauto. }
  destruct (String.eqb_spec (Region.admin_level (RegionTree.region region)) "Continent")
    as [Hc|Hc].
  { split; [intros _; split; reflexivity|]. intros Hout. exfalso. apply Hout.
    rewrite Hc. set_unfold. tauto. }
  destruct (String.eqb_spec (Region.admin_level (RegionTree.region region)) "Country")
    as [Hy|Hy].
  { split.
    - intros _. split; [|reflexivity].
      rewrite app_assoc. by rewrite last_snoc.
    - intros Hout. exfalso. apply Hout. rewrite Hy. set_unfold. tauto. }
  split; [|intros _; split; reflexivity].
  intros Hin. exfalso. set_unfold. destruct Hin as [H|[H|[H|[]]]]; contradiction.
Qed.

(** ** Version-comparison modal: default versions *)

Section DefaultVersionsFacts.
Variable getTime : string -> Z.

Lemma insertFile_perm file sorted :
  Permutation (insertFile getTime file sorted) (file :: sorted).
Proof.
  induction sorted as [|first rest IH]; simpl; [reflexivity|].
  destruct (newerFirst getTime file first <=? 0)%Z; [reflexivity|].
  rewrite IH. apply Permutation_swap.
Qed.

Lemma sortFiles_perm files : Permutation (sortFiles getTime files) files.
Proof.
  induction files as [|file files IH]; simpl; [reflexivity|].
  rewrite insertFile_perm. by constructor.
Qed.

Lemma insertFile_sorted file sorted :
  StronglySorted (fun a b => (timeOf getTime b <= timeOf getTime a)%Z) sorted ->
  StronglySorted (fun a b => (timeOf getTime b <= timeOf getTime a)%Z) (insertFile getTime file sorted).
Proof.
  induction 1 as [|first rest Hsorted IH Hall]; simpl.
  - constructor; constructor.
  - unfold newerFirst. fold (timeOf getTime first) (timeOf getTime file).
    destruct (Z.leb_spec (timeOf getTime first - timeOf getTime file) 0) as [Hle|Hgt].
    + constructor; [by constructor|].
      constructor; [lia|].
      apply Forall_forall. intros g Hg. rewrite Forall_forall in Hall.
      specialize (Hall g Hg). lia.
    + constructor; [exact IH|].
      apply Forall_forall. intros g Hg.
      rewrite insertFile_perm in Hg.
      apply elem_of_cons in Hg as [->|Hg]; [lia|].
      rewrite Forall_forall in Hall. by apply Hall.
Qed.

Lemma sortFiles_sorted files :
  StronglySorted (fun a b => (timeOf getTime b <= timeOf getTime a)%Z) (sortFiles getTime files).
Proof.
  induction files as [|file files IH]; simpl; [constructor|].
  by apply insertFile_sorted.
Qed.

End DefaultVersionsFacts.

(** X13. When the comparison modal opens with at least two files, the
    version to compare to is that of a file that no file is newer than, and
    the version to compare from is that of another position of the list,
    not newer than the first.  When the modal is closed or has fewer than
    two files, the selections are left as they are. *)
Theorem selectDefaults_newest (getTime : string -> Z) (isOpen : bool)
    (files : list DataFile.t) (st : ComparisonModal.t) :
  let st' := selectDefaults getTime isOpen files st in
  (isOpen = true -> 2 <= length files ->
   exists newest previous rest,
     Permutation (newest :: previous :: rest) files
     /\ ComparisonModal.toVersion st' = DataFile.version newest
     /\ ComparisonModal.fromVersion st' = DataFile.version previous
     /\ (timeOf getTime previous <= timeOf getTime newest)%Z
     /\ (forall file, file ∈ files -> (timeOf getTime file <= timeOf getTime newest)%Z)
     /\ (forall file, file ∈ rest -> (timeOf getTime file <= timeOf getTime previous)%Z))
  /\ (isOpen = false \/ length files < 2 -> st' = st).
Proof.
  cbn zeta. unfold selectDefaults.
  pose proof (sortFiles_perm getTime files) as Hperm.
  pose proof (sortFiles_sorted getTime files) as Hsorted.
  pose proof (Permutation_length Hperm) as Hlen.
  destruct (sortFiles getTime files) as [|newest [|previous rest]].
  - split; [simpl in Hlen; lia|]. intros _. by rewrite andb_false_r.
  - split; [simpl in Hlen; lia|]. intros _. by rewrite andb_false_r.
  - split.
    + intros -> _. cbn.
      exists newest, previous, rest. split; [exact Hperm|].
      split; [reflexivity|]. split; [reflexivity|].
      apply StronglySorted_inv in Hsorted as [Hsorted' Hnewest].
      apply StronglySorted_inv in Hsorted' as [_ Hprevious].
      rewrite Forall_forall in Hnewest, Hprevious.
      split; [apply Hnewest, list_elem_of_here|]. split.
      * intros file Hin. rewrite <- Hperm in Hin.
        apply elem_of_cons in Hin as [->|Hin]; [lia|by apply Hnewest].
      * exact Hprevious.
    + intros [->|Hshort]; [reflexivity|]. simpl in Hlen. lia.
Qed.

(** ** Download URLs *)

Lemma append_slash_inj (r1 r2 v1 v2 : string) :
  hasSlash r1 = false -> hasSlash r2 = false ->
  r1 +:+ "/" +:+ v1 = r2 +:+ "/" +:+ v2 -> r1 = r2 /\ v1 = v2.
Proof.
  revert r2. induction r1 as [|c r1 IH]; intros [|c2 r2] H1 H2 Heq;
    cbn in H1, H2; cbv [String.append] in Heq; fold String.append in Heq.
  - injection Heq as ->. by split.
  - injection Heq as <- _. cbn in H2. discriminate H2.
  - injection Heq as -> _. cbn in H1. discriminate H1.
  - injection Heq as -> Heq.
    apply orb_false_iff in H1 as [_ H1]. apply orb_false_iff in H2 as [_ H2].
    destruct (IH r2 H1 H2 Heq) as [-> ->]. by split.
Qed.

(** X14. Two files have the same download URL only if they have the same
    region id and the same version, provided that region ids contain no
    slash. *)
Theorem getDownloadUrl_injective (regionId regionId' version version' : string) :
  hasSlash regionId = false -> hasSlash regionId' = false ->
  getDownloadUrl regionId version = getDownloadUrl regionId' version' ->
  regionId = regionId' /\ version = version'.
Proof.
  intros H1 H2 Heq. unfold getDownloadUrl in Heq.
  cbv [String.append] in Heq; fold String.append in Heq.
  injection Heq as Heq. by apply append_slash_inj.
Qed.

(** ** The two path builders on a hierarchy whose parent ids match the tree *)

Lemma preorder_children_closed node : forall n c,
  n ∈ preorder node -> c ∈ RegionTree.children n -> c ∈ preorder node.
Proof.
  induction node as [r cs fs IH] using RegionTree_ind. intros n c Hn Hc.
  simpl in Hn |- *. apply elem_of_cons in Hn as [->|Hn].
  - simpl in Hc. apply list_elem_of_further, list_elem_of_In, List.in_flat_map.
    exists c. split; [by apply list_elem_of_In|apply list_elem_of_In, preorder_self].
  - apply list_elem_of_further.
    apply list_elem_of_In, List.in_flat_map in Hn as (t & Ht & Hn).
    apply list_elem_of_In in Ht, Hn. rewrite Forall_forall in IH.
    apply list_elem_of_In, List.in_flat_map. exists t.
    split; [by apply list_elem_of_In|]. apply list_elem_of_In. by apply (IH t Ht n c).
Qed.

Lemma preorderAll_children_closed regions n c :
  n ∈ preorderAll regions -> c ∈ RegionTree.children n -> c ∈ preorderAll regions.
Proof.
  intros Hn Hc.
  apply list_elem_of_In, List.in_flat_map in Hn as (t & Ht & Hn).
  apply list_elem_of_In, List.in_flat_map. exists t. split; [exact Ht|].
  apply list_elem_of_In. apply (preorder_children_closed t n c); [|exact Hc].
  by apply list_elem_of_In.
Qed.

Lemma NoDup_map_unique {A B} (f : A -> B) (l : list A) x y :
  NoDup (map f l) -> x ∈ l -> y ∈ l -> f x = f y -> x = y.
Proof.
  induction l as [|a l IH]; intros Hnd Hx Hy Hf; [by apply elem_of_nil in Hx|].
  simpl in Hnd. apply NoDup_cons in Hnd as [Hnotin Hnd].
  apply elem_of_cons in Hx as [->|Hx], Hy as [->|Hy]; [reflexivity| | |by apply IH].
  - exfalso. apply Hnotin. rewrite Hf. apply list_elem_of_fmap. by exists y.
  - exfalso. apply Hnotin. rewrite <- Hf. apply list_elem_of_fmap. by exists x.
Qed.

Lemma linked_found regions n :
  linked regions -> n ∈ preorderAll regions ->
  findRegionById regions (Region.id (RegionTree.region n)) = Some n.
Proof.
  intros (Hnd & _ & _) Hn.
  pose proof (findRegionById_known regions n Hn) as Hk. unfold known in Hk.
  destruct (findRegionById regions _) as [m|] eqn:Hm; [|discriminate].
  apply findRegionById_id in Hm as [Hid Hin]. f_equal.
  by apply (NoDup_map_unique _ _ m n Hnd Hin Hn).
Qed.

Lemma linked_parentOf regions n c :
  linked regions -> n ∈ preorderAll regions -> c ∈ RegionTree.children n ->
  RegionPageByParent.parentOf regions c = Some n.
Proof.
  intros Hl Hn Hc. pose proof Hl as (_ & _ & Hlinks).
  rewrite Forall_forall in Hlinks. specialize (Hlinks n Hn).
  rewrite Forall_forall in Hlinks. destruct (Hlinks c Hc) as [Hpid Hne].
  unfold RegionPageByParent.parentOf. rewrite Hpid.
  apply String.eqb_neq in Hne. rewrite Hne. by apply linked_found.
Qed.

Lemma linked_chain regions : linked regions ->
  forall l ids node, chainIn l ids node ->
  forall pre fuel,
    (forall r, r ∈ l ->
       r ∈ preorderAll regions
       /\ RegionPageByParent.buildPathPush (S fuel) regions r []
          = Some (pre ++ [Region.id (RegionTree.region r)])) ->
    RegionPageByParent.buildPathPush (fuel + length ids) regions node []
    = Some (pre ++ ids).
Proof.
  intros Hl l ids node Hchain.
  induction Hchain as [l node Hin|l parent ids node Hin Hchain IH]; intros pre fuel Hctx.
  - destruct (Hctx node Hin) as [_ H]. simpl. by rewrite Nat.add_1_r.
  - destruct (Hctx parent Hin) as [Hparent Hp].
    specialize (IH (pre ++ [Region.id (RegionTree.region parent)]) (S fuel)).
    cbn [length]. rewrite Nat.add_succ_r. rewrite <- app_assoc in IH. apply IH.
    intros c Hc. split; [by apply (preorderAll_children_closed _ parent)|].
    cbn [RegionPageByParent.buildPathPush].
    rewrite (linked_parentOf regions parent c Hl Hparent Hc).
    cbn [RegionPageByParent.buildPathPush] in Hp. rewrite Hp.
    by rewrite <- app_assoc.
Qed.

(** X15. On a hierarchy whose parent ids match the tree, the two revisions
    of the region page build the same path for a region of the hierarchy:
    following [parent_id] from the region returns, within as many nested
    calls as the path has ids, the path that the search from the top
    finds. *)
Theorem buildRegionPath_revisions_agree (regions : list RegionTree.t)
    (target : RegionTree.t) :
  linked regions -> target ∈ preorderAll regions ->
  let path := RegionPage.buildRegionPath regions target in
  path <> []
  /\ RegionPageByParent.buildRegionPath (length path) regions target = Some path
  /\ RegionPageByParent.buildPath (length path) regions target [] = Some path.
Proof.
  intros Hl Hin. cbn zeta.
  pose proof (linked_found regions target Hl Hin) as Hfind.
  pose proof (findPath_findRegionById regions target [] []) as H.
  rewrite Hfind in H. destruct H as (ids & Heq & Hchain).
  unfold RegionPage.buildRegionPath. rewrite Heq. cbn [snd app].
  destruct (chainIn_nonempty _ _ _ Hchain) as [Hne _].
  split; [exact Hne|].
  assert (Hpush : RegionPageByParent.buildPathPush (length ids) regions target []
                  = Some ids).
  { apply (linked_chain regions Hl regions ids target Hchain [] 0).
    intros r Hr. split; [by apply preorderAll_top|].
    destruct Hl as (_ & Htop & _). rewrite Forall_forall in Htop.
    cbn [RegionPageByParent.buildPathPush]. by rewrite (Htop r Hr). }
  split; [exact Hpush|].
  rewrite buildPath_suffix, Hpush. simpl. by rewrite app_nil_r.
Qed.

(** ** Navigation of the later region page *)

(** X16. On a hierarchy whose parent ids match the tree, navigating to a
    URL whose last segment is the id of a region of the hierarchy shows
    that region, with a breadcrumb of one item for each id on the way from
    the top to the region, whatever the other segments of the URL are; as
    many nested calls as that way has ids are enough. *)
Theorem navigateToPath_by_parent (regions : list RegionTree.t)
    (fetchRegion : string -> option RegionTree.t) (target : RegionTree.t)
    (urlPath : list string) (st : Nav.t) (fuel : nat) :
  linked regions -> target ∈ preorderAll regions ->
  last urlPath = Some (Region.id (RegionTree.region target)) ->
  let path := RegionPage.buildRegionPath regions target in
  length path <= fuel ->
  exists st',
    RegionPageByParent.navigateToPath fuel regions fetchRegion urlPath st = Some st'
    /\ Nav.currentRegion st' = Some target
    /\ map BreadcrumbItem.id (Nav.currentPath st') = path
    /\ map BreadcrumbItem.path (Nav.currentPath st') = prefixUrls path
    /\ Nav.pushed st' = Nav.pushed st.
Proof.
  intros Hl Hin Hlast. cbn zeta. intros Hfuel.
  pose proof (linked_found regions target Hl Hin) as Hfind.
  pose proof (findPath_findRegionById regions target [] []) as H.
  rewrite Hfind in H. destruct H as (ids & Heq & Hchain).
  unfold RegionPage.buildRegionPath in *. rewrite Heq in *. cbn [snd app] in *.
  pose proof (chainIn_known _ _ _ Hchain) as Hknown.
  assert (Hpush : RegionPageByParent.buildPathPush fuel regions target [] = Some ids).
  { apply (buildPathPush_mono regions (length ids)); [|exact Hfuel].
    apply (linked_chain regions Hl regions ids target Hchain [] 0).
    intros r Hr. split; [by apply preorderAll_top|].
    destruct Hl as (_ & Htop & _). rewrite Forall_forall in Htop.
    cbn [RegionPageByParent.buildPathPush]. by rewrite (Htop r Hr). }
  unfold RegionPageByParent.navigateToPath,
    RegionPageByParent.buildBreadcrumbFromPath,
    RegionPageByParent.buildCompleteHierarchy.
  rewrite Hlast, Hfind, buildPath_suffix, Hpush. cbn [fmap option_fmap option_map].
  rewrite app_nil_r. eexists. split; [reflexivity|].
  cbn [Nav.currentRegion Nav.currentPath Nav.pushed].
  split; [reflexivity|]. split; [|split; [|reflexivity]].
  - rewrite breadcrumbLoop_ids. simpl. by apply filter_all_true.
  - rewrite (breadcrumbLoop_paths _ _ _ _ _ Hknown). reflexivity.
Qed.

(** X17. When the last segment of the URL names no region of the loaded
    hierarchy, the later region page asks the API for the region: if the
    API returns it, the region is shown with an empty breadcrumb; if not,
    the page redirects to the home page and keeps what it showed.  No
    nested call is needed for either. *)
Theorem navigateToPath_not_loaded (regions : list RegionTree.t)
    (fetchRegion : string -> option RegionTree.t) (targetRegionId : string)
    (urlPath : list string) (st : Nav.t) (fuel : nat) :
  last urlPath = Some targetRegionId ->
  findRegionById regions targetRegionId = None ->
  RegionPageByParent.navigateToPath fuel regions fetchRegion urlPath st
  = Some match fetchRegion targetRegionId with
         | Some fetchedRegion =>
             {| Nav.currentRegion := Some fetchedRegion;
                Nav.currentPath := [];
                Nav.pushed := Nav.pushed st |}
         | None =>
             {| Nav.currentRegion := Nav.currentRegion st;
                Nav.currentPath := Nav.currentPath st;
                Nav.pushed := Some "/" |}
         end.
Proof.
  intros Hlast Hnone.
  unfold RegionPageByParent.navigateToPath, RegionPageByParent.buildBreadcrumbFromPath.
  rewrite Hlast, Hnone. destruct (fetchRegion targetRegionId); reflexivity.
Qed.

(** ** Navigation of the earlier region page: the root and unknown regions *)

(** X18. With an empty URL path the earlier region page shows nothing only
    when no region is loaded; otherwise it shows a region of the hierarchy,
    the one with id "world" when there is one, as the only crumb.  With a
    URL path whose last segment names no region it redirects to the home
    page and keeps what it showed. *)
Theorem navigateToPath_edges (regions : list RegionTree.t) (urlPath : list string)
    (st : Nav.t) :
  (urlPath = [] -> regions = [] ->
   RegionPage.navigateToPath regions urlPath st = Nav.mk None [] (Nav.pushed st))
  /\ (urlPath = [] -> regions <> [] ->
      exists w,
        w ∈ preorderAll regions
        /\ (known regions "world" = true -> Region.id (RegionTree.region w) = "world")
        /\ RegionPage.navigateToPath regions urlPath st
           = Nav.mk (Some w)
               [BreadcrumbItem.mk (Region.id (RegionTree.region w))
                  (Region.name (RegionTree.region w))
                  ("/region/" +:+ Region.id (RegionTree.region w))]
               (Nav.pushed st))
  /\ (forall targetRegionId,
        last urlPath = Some targetRegionId ->
        findRegionById regions targetRegionId = None ->
        RegionPage.navigateToPath regions urlPath st
        = Nav.mk (Nav.currentRegion st) (Nav.currentPath st) (Some "/")).
Proof.
  split; [|split].
  - intros -> ->. reflexivity.
  - intros -> Hne. unfold RegionPage.navigateToPath. cbn [last].
    unfold known.
    destruct (findRegionById regions "world") as [w|] eqn:Hw.
    + exists w. apply findRegionById_id in Hw as [Hid Hin].
      split; [exact Hin|]. split; [intros _; exact Hid|reflexivity].
    + cbn [RegionPage.orElse].
      destruct (List.find _ regions) as [w|] eqn:Hfind.
      * exists w. apply List.find_some in Hfind as [Hin _].
        split; [by apply preorderAll_top, list_elem_of_In|].
        split; [discriminate|reflexivity].
      * destruct regions as [|r rest]; [contradiction|].
        exists r. split; [apply preorderAll_top, list_elem_of_here|].
        split; [discriminate|reflexivity].
  - intros targetRegionId Hlast Hnone. unfold RegionPage.navigateToPath.
    by rewrite Hlast, Hnone.
Qed.

(** ** The further properties on sample data *)

Lemma buildRegionPath_chain_witness :
  RegionPage.buildRegionPath sampleForest sampleNode = ["world"; "europe"; "liechtenstein"]
  /\ chainIn sampleForest (RegionPage.buildRegionPath sampleForest sampleNode) sampleNode
  /\ RegionPage.buildRegionPath sampleForest (leaf "atlantis" None) = [].
Proof.
  destruct (buildRegionPath_chain sampleForest sampleNode) as [_ Hfound].
  destruct (buildRegionPath_chain sampleForest (leaf "atlantis" None)) as [Hnone _].
  split; [reflexivity|]. split.
  - apply (Hfound sampleNode). reflexivity.
  - apply Hnone. reflexivity.
Defined.

Lemma navigateToPath_buildRegionPath_witness :
  let st := RegionPage.navigateToPath sampleForest
              (RegionPage.buildRegionPath sampleForest sampleNode) Nav.initial in
  Nav.currentRegion st = Some sampleNode
  /\ map BreadcrumbItem.path (Nav.currentPath st)
     = ["/region/world"; "/region/world/europe"; "/region/world/europe/liechtenstein"].
Proof.
  cbn zeta.
  destruct (navigateToPath_buildRegionPath sampleForest sampleNode sampleNode
              Nav.initial eq_refl) as (_ & Hregion & _ & Hpaths & _).
  split; [exact Hregion|]. rewrite Hpaths. reflexivity.
Defined.

Lemma handleBackNavigation_parent_witness :
  Nav.pushed (RegionPage.handleBackNavigation
                (RegionPage.navigateToPath sampleForest
                   (RegionPage.buildRegionPath sampleForest sampleNode) Nav.initial))
  = Some "/region/world/europe".
Proof.
  rewrite (handleBackNavigation_parent sampleForest sampleNode sampleNode
             Nav.initial eq_refl).
  reflexivity.
Defined.

Lemma buildRegionPath_by_parent_returns_witness :
  RegionPageByParent.parentOf [selfParent] selfParent = Some selfParent
  /\ RegionPageByParent.buildRegionPath 1000 [selfParent] selfParent = None
  /\ exists fuel ids,
       RegionPageByParent.buildRegionPath fuel sampleHierarchy sampleNode = Some ids.
Proof.
  destruct (buildRegionPath_by_parent_returns [selfParent] selfParent) as (_ & _ & Hloop).
  destruct (buildRegionPath_by_parent_returns sampleHierarchy sampleNode) as ([_ Hret] & _).
  split; [reflexivity|]. split; [apply Hloop; reflexivity|].
  apply Hret. exists 3. reflexivity.
Defined.

Lemma buildPath_both_agree_witness :
  RegionPageByParent.buildPath 5 sampleHierarchy sampleNode []
  = Some ["world"; "europe"; "liechtenstein"]
  /\ last ["world"; "europe"; "liechtenstein"] = Some "liechtenstein".
Proof.
  destruct (buildPath_both_agree 5 sampleHierarchy sampleNode) as [Hsame Hshape].
  rewrite Hsame. split; [reflexivity|].
  destruct (Hshape ["world"; "europe"; "liechtenstein"] eq_refl) as (_ & Hlast & _).
  exact Hlast.
Defined.

Lemma formatFileSize_rounding_witness :
  formatFileSize 256 = "0.3 KB"
  /\ formatFileSize 2048 = "2.0 KB"
  /\ formatFileSize 1048576 = "1.0 MB"
  /\ (roundTenths 256 1024 <= roundTenths 2048 1024)%N.
Proof.
  destruct (formatFileSize_rounding 256 2048) as (_ & _ & Hmono).
  split; [vm_compute; reflexivity|]. split; [vm_compute; reflexivity|].
  split; [vm_compute; reflexivity|].
  apply Hmono; [lia|reflexivity].
Defined.

Lemma formatFileSize_1024_KB_witness :
  formatFileSize 1048575 = "1024.0 KB".
Proof. apply formatFileSize_1024_KB. lia. Defined.

Lemma score_bands_witness :
  getScoreColor 95 = "text-green-600"
  /\ getScoreColor 90 = "text-green-600"
  /\ getScoreColor 89.75 = "text-yellow-600"
  /\ getScoreColor 70 = "text-yellow-600"
  /\ getScoreColor 69.5 = "text-red-600"
  /\ fst (getScoreIcon 89.75) = AlertTriangle
  /\ fst (getScoreIcon 69.5) = XCircle.
Proof.
  destruct (score_bands 90 95) as (_ & _ & Hmono & Hgreen & _).
  destruct (score_bands 89.75 90) as (_ & _ & _ & _ & Hyellow & _ & _ & Hwarning & _).
  destruct (score_bands 70 90) as (_ & _ & _ & _ & Hyellow' & _).
  destruct (score_bands 69.5 90) as (_ & _ & _ & _ & _ & Hred & _ & _ & Hcross).
  split; [apply Hmono; [reflexivity|apply Hgreen; reflexivity]|].
  split; [apply Hgreen; reflexivity|].
  split; [apply Hyellow; split; reflexivity|].
  split; [apply Hyellow'; split; reflexivity|].
  split; [apply Hred; reflexivity|].
  split; [apply Hwarning; split; reflexivity|apply Hcross; reflexivity].
Defined.

Lemma renderRegions_rows_witness :
  renderRegions {[ "world"; "europe" ]} sampleHierarchy
  = ["world"; "europe"; "liechtenstein"; "monaco"; "asia"]
  /\ renderRegions {[ "europe" ]} sampleHierarchy = ["world"].
Proof.
  destruct (renderRegions_rows {[ "world"; "europe" ]} sampleHierarchy)
    as (_ & _ & _ & Hall).
  split; [|reflexivity].
  rewrite Hall; [reflexivity|].
  intros n Hn Hkids. vm_compute in Hn.
  repeat (apply elem_of_cons in Hn as [->|Hn]);
    try (by apply elem_of_nil in Hn); try (exfalso; by apply Hkids);
    cbn; set_solver.
Defined.

Lemma loadRegions_selects_witness :
  HomePage.selectedRegion (HomePage.loadRegions sampleForest)
  = head sampleForest
  /\ HomePage.selectedRegion (HomePage.loadRegions []) = None.
Proof.
  destruct (loadRegions_selects []) as (_ & Hempty & _).
  split; [reflexivity|]. by apply Hempty.
Defined.

Lemma handleRegionSelect_levels_witness :
  let st := HomePage.handleRegionSelect sampleDistrict (HomePage.loadRegions sampleForest) in
  RegionTree.children sampleDistrict <> []
  /\ HomePage.getCurrentRegions st = []
  /\ HomePage.currentPath st = HomePage.currentPath (HomePage.loadRegions sampleForest).
Proof.
  cbn zeta.
  destruct (handleRegionSelect_levels sampleDistrict (HomePage.loadRegions sampleForest))
    as (_ & _ & _ & Hother).
  split; [discriminate|].
  destruct Hother as [Hpath Hlist].
  - cbn. set_unfold. intros [H|[H|[H|[]]]]; discriminate H.
  - split; [exact Hlist|exact Hpath].
Defined.

Lemma selectDefaults_newest_witness :
  let st := selectDefaults sampleTime true [olderFile; sampleFile]
              (ComparisonModal.mk "" "" None false None) in
  ComparisonModal.toVersion st = "2024-01-01"
  /\ ComparisonModal.fromVersion st = "2023-12-01"
  /\ selectDefaults sampleTime true [sampleFile]
       (ComparisonModal.mk "" "" None false None)
     = ComparisonModal.mk "" "" None false None.
Proof.
  cbn zeta.
  destruct (selectDefaults_newest sampleTime true [sampleFile]
              (ComparisonModal.mk "" "" None false None)) as [_ Hshort].
  split; [reflexivity|]. split; [reflexivity|].
  apply Hshort. right. simpl. lia.
Defined.

Lemma getDownloadUrl_injective_witness :
  getDownloadUrl "liechtenstein" "2024-01-01" = "/download/liechtenstein/2024-01-01"
  /\ ("liechtenstein" = "liechtenstein" /\ "2024-01-01" = "2024-01-01")
  /\ getDownloadUrl "a/b" "c" = getDownloadUrl "a" "b/c".
Proof.
  split; [reflexivity|]. split; [|reflexivity].
  apply (getDownloadUrl_injective "liechtenstein" "liechtenstein"
           "2024-01-01" "2024-01-01"); reflexivity.
Defined.

Lemma sampleHierarchy_linked : linked sampleHierarchy.
Proof.
  split; [|split].
  - vm_compute. repeat constructor; set_unfold; intuition discriminate.
  - repeat constructor.
  - repeat constructor; discriminate.
Qed.

Lemma buildRegionPath_revisions_agree_witness :
  RegionPageByParent.buildRegionPath 3 sampleHierarchy sampleNode
  = Some (RegionPage.buildRegionPath sampleHierarchy sampleNode)
  /\ RegionPage.buildRegionPath sampleHierarchy sampleNode
     = ["world"; "europe"; "liechtenstein"].
Proof.
  destruct (buildRegionPath_revisions_agree sampleHierarchy sampleNode
              sampleHierarchy_linked) as (_ & Hsame & _).
  - vm_compute. set_unfold. tauto.
  - split; [exact Hsame|reflexivity].
Defined.

Lemma navigateToPath_by_parent_witness :
  exists st,
    RegionPageByParent.navigateToPath 3 sampleHierarchy (fun _ => None)
      ["anything"; "liechtenstein"] Nav.initial = Some st
    /\ Nav.currentRegion st = Some sampleNode
    /\ map BreadcrumbItem.id (Nav.currentPath st) = ["world"; "europe"; "liechtenstein"].
Proof.
  destruct (navigateToPath_by_parent sampleHierarchy (fun _ => None) sampleNode
              ["anything"; "liechtenstein"] Nav.initial 3 sampleHierarchy_linked)
    as (st & Hnav & Hregion & Hids & _).
  - vm_compute. set_unfold. tauto.
  - reflexivity.
  - vm_compute. lia.
  - exists st. split; [exact Hnav|]. split; [exact Hregion|]. rewrite Hids. reflexivity.
Defined.

Lemma navigateToPath_not_loaded_witness :
  RegionPageByParent.navigateToPath 0 sampleHierarchy
    (fun id => if String.eqb id "vaduz" then Some sampleDistrict else None)
    ["world"; "vaduz"] Nav.initial
  = Some (Nav.mk (Some sampleDistrict) [] None)
  /\ RegionPageByParent.navigateToPath 0 sampleHierarchy (fun _ => None)
       ["world"; "vaduz"] Nav.initial
     = Some (Nav.mk None [] (Some "/")).
Proof.
  split.
  - rewrite (navigateToPath_not_loaded sampleHierarchy _ "vaduz"); reflexivity.
  - rewrite (navigateToPath_not_loaded sampleHierarchy _ "vaduz"); reflexivity.
Defined.

Lemma navigateToPath_edges_witness :
  Nav.currentRegion (RegionPage.navigateToPath sampleForest [] Nav.initial)
    = head sampleForest
  /\ RegionPage.navigateToPath sampleForest ["world"; "atlantis"] Nav.initial
     = Nav.mk None [] (Some "/").
Proof.
  destruct (navigateToPath_edges sampleForest ["world"; "atlantis"] Nav.initial)
    as (_ & _ & Hunknown).
  split; [reflexivity|].
  apply (Hunknown "atlantis"); reflexivity.
Defined.

(** ** Change indicators *)

Lemma float_opp_sign (x : float) :
  (0 <? - x)%float = (x <? 0)%float /\ (- x <? 0)%float = (0 <? x)%float.
Proof.
  rewrite !ltb_spec, opp_spec.
  change (Prim2SF 0) with (S754_zero false).
  destruct (Prim2SF x) as [[]|[]| |[] m e]; split; reflexivity.
Qed.

Lemma float_nonneg_not_neg (x : float) :
  (0 <=? x)%float = true -> (x <? 0)%float = false.
Proof.
  rewrite leb_spec, ltb_spec.
  change (Prim2SF 0) with (S754_zero false).
  destruct (Prim2SF x) as [[]|[]| |[] m e]; cbv; congruence.
Qed.

Lemma float_pos_not_neg (x : float) :
  (0 <? x)%float = true -> (x <? 0)%float = false.
Proof.
  rewrite !ltb_spec.
  change (Prim2SF 0) with (S754_zero false).
  destruct (Prim2SF x) as [[]|[]| |[] m e]; cbv; congruence.
Qed.

(** X19. The icon and the colour of a change always go together (plus and
    green, minus and red, no icon and gray).  They are plus and green
    exactly for a value above 0, minus and red exactly for a value below 0,
    and no icon and gray otherwise, which includes 0 and NaN.  The number of
    deleted features is shown through its negation: it is never green, red
    exactly when the number is positive, gray when it is zero. *)
Theorem change_indicators (value deleted : float) :
  (getChangeIcon value, getChangeColor value)
    ∈ [ (PlusIcon, "text-green-600"); (MinusIcon, "text-red-600");
        (NoIcon, "text-gray-600") ]
  /\ (getChangeIcon nan, getChangeColor nan) = (NoIcon, "text-gray-600")
  /\ ((0 <=? deleted)%float = true ->
      getChangeColor (- deleted) <> "text-green-600"
      /\ (getChangeColor (- deleted) = "text-red-600" <-> (0 <? deleted)%float = true)
      /\ (getChangeIcon (- deleted) = MinusIcon <-> (0 <? deleted)%float = true))
  /\ (getChangeIcon value = PlusIcon <-> (0 <? value)%float = true)
  /\ (getChangeIcon value = MinusIcon <-> (value <? 0)%float = true)
  /\ (getChangeIcon value = NoIcon
      <-> (0 <? value)%float = false /\ (value <? 0)%float = false)
  /\ (getChangeColor value = "text-green-600" <-> (0 <? value)%float = true)
  /\ (getChangeColor value = "text-red-600" <-> (value <? 0)%float = true)
  /\ (getChangeColor value = "text-gray-600"
      <-> (0 <? value)%float = false /\ (value <? 0)%float = false).
Proof.
  pose proof (float_pos_not_neg value) as Hsign.
  unfold getChangeIcon, getChangeColor. split; [|split; [reflexivity|split]].
  - destruct (0 <? value)%float; [set_unfold; tauto|].
    destruct (value <? 0)%float; set_unfold; tauto.
  - intros Hnonneg. destruct (float_opp_sign deleted) as [-> ->].
    rewrite (float_nonneg_not_neg deleted Hnonneg).
    destruct (0 <? deleted)%float; repeat split; try discriminate; try reflexivity.
  - destruct (0 <? value)%float eqn:Hpos.
    + rewrite (Hsign eq_refl).
      repeat split; try discriminate; try reflexivity; intros [? ?]; discriminate.
    + clear Hsign. destruct (value <? 0)%float;
        repeat split; try discriminate; try reflexivity; intros [? ?]; discriminate.
Qed.

Lemma change_indicators_witness :
  getChangeColor (- 3) = "text-red-600"
  /\ getChangeColor (- 0) = "text-gray-600"
  /\ getChangeColor 3 = "text-green-600"
  /\ getChangeColor 0.5 = "text-green-600"
  /\ getChangeIcon 0.5 = PlusIcon
  /\ getChangeIcon (- 0.5) = MinusIcon.
Proof.
  destruct (change_indicators 3 3) as (_ & _ & Hdeleted & _).
  destruct (Hdeleted eq_refl) as (_ & Hred & _).
  destruct (change_indicators 0.5 3) as (_ & _ & _ & Hplus & _ & _ & Hgreen & _).
  destruct (change_indicators (- 0.5) 3) as (_ & _ & _ & _ & Hminus & _).
  split; [apply Hred; reflexivity|]. split; [reflexivity|]. split; [reflexivity|].
  split; [apply Hgreen; reflexivity|].
  split; [apply Hplus; reflexivity|apply Hminus; reflexivity].
Defined.
